(** * flashinfer.jit: the JIT build-and-load layer

    A shallow embedding of [python/flashinfer/jit/__init__.py]: the
    capability check, the cache-clearing utility, the flag sanitisation
    run at import, the module initialisation and the build entry point
    [load_cuda_ops], over an explicit world (file system, the shared
    flag list of the extension framework, the log, the lock table and
    the trace of loader invocations). *)

From Stdlib Require Import ZArith Ascii String List Lia.
From stdpp Require Import base option list strings gmap fin_maps.

Local Open Scope string_scope.
Local Open Scope list_scope.
Local Open Scope Z_scope.

(** ** Python exceptions *)

Module Py.

(** The exception classes the file can meet, with the part of the
    built-in hierarchy that an [except] clause of the file consults. *)
Inductive exc_class : Type :=
  | Exception
  | RuntimeError
  | AttributeError
  | ValueError
  | ImportError
  | ModuleNotFoundError
  | OSError
  | FileExistsError
  | FileNotFoundError
  | IsADirectoryError
  | NotADirectoryError
  | OtherError (name : string).

#[global] Instance exc_class_eq_dec : EqDecision exc_class.
Proof. solve_decision. Defined.

Record exn : Type := Exn { exn_class : exc_class; exn_msg : string }.

#[global] Instance exn_eq_dec : EqDecision exn.
Proof. solve_decision. Defined.

(** Direct base class; [Exception] and the loader's own classes are
    taken as roots. *)
Definition exc_base (c : exc_class) : option exc_class :=
  match c with
  | Exception => None
  | RuntimeError | AttributeError | ValueError | ImportError | OSError =>
      Some Exception
  | ModuleNotFoundError => Some ImportError
  | FileExistsError | FileNotFoundError | IsADirectoryError
  | NotADirectoryError => Some OSError
  | OtherError _ => Some Exception
  end.

(** [issubclass c d], climbing at most the depth of the hierarchy. *)
Fixpoint issubclass_fuel (fuel : nat) (c d : exc_class) : bool :=
  if decide (c = d) then true
  else match fuel with
       | O => false
       | S fuel' =>
           match exc_base c with
           | Some b => issubclass_fuel fuel' b d
           | None => false
           end
       end.

Definition issubclass : exc_class -> exc_class -> bool := issubclass_fuel 3.

Definition isinstance (e : exn) (c : exc_class) : bool :=
  issubclass (exn_class e) c.

(** What a call does: return a value, raise, or never come back (a
    blocking lock acquisition with no timeout). *)
Inductive outcome (A : Type) : Type :=
  | Returns (a : A)
  | Raises (e : exn)
  | Blocks.

Arguments Returns {A} a.
Arguments Raises {A} e.
Arguments Blocks {A}.

End Py.

Import Py.

(** ** The regular expression [compute_(\d+)]

    Flag strings are taken as byte strings, as the toolchain builds
    them: [\d] is an ASCII digit and [int] reads decimal digits of any
    length. *)

Module Re.

Definition is_digit (c : ascii) : bool :=
  let n := nat_of_ascii c in (48 <=? n)%nat && (n <=? 57)%nat.

(** The longest run of digits at the front of [s]: what a greedy [\d+]
    consumes. *)
Fixpoint take_digits (s : string) : string :=
  match s with
  | EmptyString => EmptyString
  | String c s' => if is_digit c then String c (take_digits s') else EmptyString
  end.

Fixpoint all_digits (s : string) : bool :=
  match s with
  | EmptyString => true
  | String c s' => is_digit c && all_digits s'
  end.

(** [strip_prefix p s] is the rest of [s] after the literal [p]. *)
Fixpoint strip_prefix (p s : string) : option string :=
  match p, s with
  | EmptyString, _ => Some s
  | String a p', String b s' =>
      if Ascii.eqb a b then strip_prefix p' s' else None
  | String _ _, EmptyString => None
  end.

(** The pattern matched at the first position of [s]; the result is
    group 1. *)
Definition match_here (s : string) : option string :=
  match strip_prefix "compute_" s with
  | Some rest =>
      match take_digits rest with
      | EmptyString => None
      | ds => Some ds
      end
  | None => None
  end.

(** [re.search(r"compute_(\d+)", s)], reduced to group 1 of the match:
    the leftmost position at which the pattern matches wins. [None] is
    Python's [None]. *)
Fixpoint search (s : string) : option string :=
  match match_here s with
  | Some g => Some g
  | None =>
      match s with
      | EmptyString => None
      | String _ s' => search s'
      end
  end.

Definition digit_value (c : ascii) : Z := Z.of_nat (nat_of_ascii c) - 48.

Fixpoint int_acc (acc : Z) (s : string) : Z :=
  match s with
  | EmptyString => acc
  | String c s' => int_acc (10 * acc + digit_value c) s'
  end.

(** [int(ds)] on a string of decimal digits. *)
Definition int (ds : string) : Z := int_acc 0 ds.

End Re.

(** ** The file system, the world and the effect monad *)

Module Fs.

(** A path is its list of components from the root. *)
Abbreviation path := (list string).

Inductive node : Type := File | Dir.

#[global] Instance node_eq_dec : EqDecision node.
Proof. solve_decision. Defined.

(** [str(p)] for a [pathlib.Path]. *)
Definition path_str (p : path) : string :=
  fold_right (fun c acc => "/" +:+ c +:+ acc) "" p.

(** A [Union[str, Path]] value. *)
Inductive pathlike : Type :=
  | PStr (s : string)
  | PPath (p : path).

Definition py_str (x : pathlike) : string :=
  match x with
  | PStr s => s
  | PPath p => path_str p
  end.

(** The non-empty prefixes of a path, shortest first: the directories
    [os.makedirs] walks through. *)
Fixpoint prefixes (p : path) : list path :=
  match p with
  | [] => []
  | c :: p' => [c] :: map (cons c) (prefixes p')
  end.

(** [child_of d p] is the name of [p] when [p] is a direct entry of
    the directory [d]. *)
Fixpoint child_of (d p : path) : option string :=
  match d, p with
  | [], [n] => Some n
  | x :: d', y :: p' => if decide (x = y) then child_of d' p' else None
  | _, _ => None
  end.

End Fs.

Import Fs.

(** The arguments one invocation of the framework's extension loader
    receives. *)
Record LoadArgs : Type := {
  la_name : string;
  la_sources : list string;
  la_extra_cflags : list string;
  la_extra_cuda_cflags : list string;
  la_extra_ldflags : option (list string);
  la_extra_include_paths : list string;
  la_build_directory : path;
  la_verbose : bool;
  la_with_cuda : bool
}.

(** The state the file reads and writes. *)
Record World : Type := {
  fs : gmap path node;                 (* what exists on disk *)
  COMMON_NVCC_FLAGS : list string;     (* torch_cpp_ext.COMMON_NVCC_FLAGS *)
  cuda_arch_flags : list string;       (* torch_cpp_ext._get_cuda_arch_flags() *)
  log : list string;                   (* messages handed to the handlers *)
  held_locks : gset path;              (* lock files currently locked *)
  load_calls : list LoadArgs           (* invocations of torch_cpp_ext.load *)
}.

Definition set_fs (f : gmap path node -> gmap path node) (w : World) : World :=
  {| fs := f (fs w); COMMON_NVCC_FLAGS := COMMON_NVCC_FLAGS w;
     cuda_arch_flags := cuda_arch_flags w; log := log w;
     held_locks := held_locks w; load_calls := load_calls w |}.

Definition set_nvcc_flags (l : list string) (w : World) : World :=
  {| fs := fs w; COMMON_NVCC_FLAGS := l;
     cuda_arch_flags := cuda_arch_flags w; log := log w;
     held_locks := held_locks w; load_calls := load_calls w |}.

Definition add_log (msg : string) (w : World) : World :=
  {| fs := fs w; COMMON_NVCC_FLAGS := COMMON_NVCC_FLAGS w;
     cuda_arch_flags := cuda_arch_flags w; log := log w ++ [msg];
     held_locks := held_locks w; load_calls := load_calls w |}.

Definition set_held (f : gset path -> gset path) (w : World) : World :=
  {| fs := fs w; COMMON_NVCC_FLAGS := COMMON_NVCC_FLAGS w;
     cuda_arch_flags := cuda_arch_flags w; log := log w;
     held_locks := f (held_locks w); load_calls := load_calls w |}.

Definition add_load_call (a : LoadArgs) (w : World) : World :=
  {| fs := fs w; COMMON_NVCC_FLAGS := COMMON_NVCC_FLAGS w;
     cuda_arch_flags := cuda_arch_flags w; log := log w;
     held_locks := held_locks w; load_calls := load_calls w ++ [a] |}.

(** Statements run in a world and leave an outcome and a world; a
    raised exception keeps the effects made before it. *)
Definition M (A : Type) : Type := World -> outcome A * World.

Definition ret {A} (a : A) : M A := fun w => (Returns a, w).

Definition raise {A} (c : exc_class) (msg : string) : M A :=
  fun w => (Raises (Exn c msg), w).

Definition bind {A B} (m : M A) (k : A -> M B) : M B :=
  fun w =>
    match m w with
    | (Returns a, w') => k a w'
    | (Raises e, w') => (Raises e, w')
    | (Blocks, w') => (Blocks, w')
    end.

Declare Scope py_scope.
Delimit Scope py_scope with py.
Notation "x <- m ;; k" := (bind m (fun x => k))
  (at level 100, m at next level, right associativity) : py_scope.
Notation "m ;;; k" := (bind m (fun _ => k))
  (at level 100, right associativity) : py_scope.
Local Open Scope py_scope.

(** [try: body except c: handler] *)
Definition try_except {A} (body : M A) (c : exc_class) (handler : M A) : M A :=
  fun w =>
    match body w with
    | (Raises e, w') =>
        if isinstance e c then handler w' else (Raises e, w')
    | r => r
    end.

(** [for x in l: body(x)] over a list fixed when the loop starts. *)
Fixpoint for_each {A} (l : list A) (body : A -> M unit) : M unit :=
  match l with
  | [] => ret tt
  | x :: l' => body x ;;; for_each l' body
  end.

(** *** Operating-system and library primitives

    Failures of the operating system itself (permissions, a full disk)
    are outside the model; a regular file standing where a directory is
    needed is in it. *)

(** The node at a path; the root is always there. *)
Definition node_at (m : gmap path node) (p : path) : option node :=
  match p with
  | [] => Some Dir
  | _ :: _ => m !! p
  end.

Definition os_path_exists (p : path) : M bool :=
  fun w => (Returns (bool_decide (is_Some (node_at (fs w) p))), w).

(** The proper ancestors of a path below the root, nearest first. *)
Definition ancestors (p : path) : list path := reverse (prefixes (removelast p)).

(** [os.mkdir(q)], given the kind of the parent of [q]. *)
Definition mkdir (m : gmap path node) (q : path) (parent : node)
  : gmap path node + exn :=
  match m !! q with
  | Some _ => inr (Exn FileExistsError (path_str q))
  | None =>
      match parent with
      | Dir => inl (<[q := Dir]> m)
      | File => inr (Exn NotADirectoryError (path_str q))
      end
  end.

(** The recursion of [os.makedirs(p)]: when the parent exists, [p] is
    made in it; otherwise the parent is made first, in the same way.
    [anc] lists the ancestors of [p] still to be looked at, nearest
    first; past the last of them is the root. The [FileExistsError]
    that the library passes over after the recursive call cannot arise:
    the parent has just been found missing. *)
Fixpoint makedirs_up (m : gmap path node) (p : path) (anc : list path)
  : gmap path node + exn :=
  match anc with
  | [] => mkdir m p Dir
  | head :: anc' =>
      match m !! head with
      | Some k => mkdir m p k
      | None =>
          match makedirs_up m head anc' with
          | inl m' => mkdir m' p Dir
          | inr e => inr e
          end
      end
  end.

(** [os.makedirs(p)], with [exist_ok] left at [False]: the missing
    ancestors and [p] itself are made; a regular file where the nearest
    existing ancestor should be a directory makes it fail with
    [NotADirectoryError]. *)
Definition os_makedirs (p : path) : M unit :=
  fun w =>
    match node_at (fs w) p with
    | Some _ => (Raises (Exn FileExistsError (path_str p)), w)
    | None =>
        match makedirs_up (fs w) p (ancestors p) with
        | inl m' => (Returns tt, set_fs (fun _ => m') w)
        | inr e => (Raises e, w)
        end
    end.

(** The names in a directory, in the map's order, which no statement
    below depends on. *)
Definition entries (m : gmap path node) (d : path) : list string :=
  omap (fun kv => child_of d kv.1) (map_to_list m).

(** [os.listdir(d)] *)
Definition os_listdir (d : path) : M (list string) :=
  fun w =>
    match node_at (fs w) d with
    | Some Dir => (Returns (entries (fs w) d), w)
    | Some File => (Raises (Exn NotADirectoryError (path_str d)), w)
    | None => (Raises (Exn FileNotFoundError (path_str d)), w)
    end.

(** [os.remove(p)]: unlinks a regular file, refuses a directory. *)
Definition os_remove (p : path) : M unit :=
  fun w =>
    match node_at (fs w) p with
    | Some File => (Returns tt, set_fs (delete p) w)
    | Some Dir => (Raises (Exn IsADirectoryError (path_str p)), w)
    | None => (Raises (Exn FileNotFoundError (path_str p)), w)
    end.

(** [open(p, mode)] for the modes that create the file, ["w"] and
    ["a"]. Contents are not modelled. *)
Definition open_create (p : path) : M unit :=
  fun w =>
    match node_at (fs w) p with
    | Some File => (Returns tt, w)
    | Some Dir => (Raises (Exn IsADirectoryError (path_str p)), w)
    | None =>
        match node_at (fs w) (removelast p) with
        | Some Dir => (Returns tt, set_fs (insert p File) w)
        | Some File => (Raises (Exn NotADirectoryError (path_str p)), w)
        | None => (Raises (Exn FileNotFoundError (path_str p)), w)
        end
    end.

(** The disk after a lock file has been opened at [p]. *)
Definition touch_lock_file (p : path) (m : gmap path node) : gmap path node :=
  match node_at m p with
  | Some _ => m
  | None => <[p := File]> m
  end.

(** [list.remove(x)]: drops the first occurrence, [ValueError] when
    there is none. *)
Fixpoint list_remove (x : string) (l : list string) : option (list string) :=
  match l with
  | [] => None
  | y :: l' =>
      if decide (x = y) then Some l'
      else match list_remove x l' with
           | Some r => Some (y :: r)
           | None => None
           end
  end.

Definition COMMON_NVCC_FLAGS_remove (x : string) : M unit :=
  fun w =>
    match list_remove x (COMMON_NVCC_FLAGS w) with
    | Some l => (Returns tt, set_nvcc_flags l w)
    | None => (Raises (Exn ValueError "list.remove(x): x not in list"), w)
    end.

Definition _get_cuda_arch_flags : M (list string) :=
  fun w => (Returns (cuda_arch_flags w), w).

(** [FileLock(p).acquire()] with the default timeout of -1: waits for
    ever while the lock file is locked, otherwise creates the lock file
    when missing and locks it. *)
Definition lock_acquire (p : path) : M unit :=
  fun w =>
    if decide (p ∈ held_locks w) then (Blocks, w)
    else (Returns tt, set_held (union {[ p ]}) (set_fs (touch_lock_file p) w)).

Definition lock_release (p : path) : M unit :=
  fun w => (Returns tt, set_held (fun s => s ∖ {[ p ]}) w).

(** [with FileLock(p): body]: the lock is released on return and on an
    exception, which then goes on to the caller. *)
Definition with_lock {A} (p : path) (body : M A) : M A :=
  fun w =>
    match lock_acquire p w with
    | (Returns _, w1) =>
        match body w1 with
        | (Blocks, w2) => (Blocks, w2)
        | (r, w2) => (r, snd (lock_release p w2))
        end
    | (Raises e, w1) => (Raises e, w1)
    | (Blocks, w1) => (Blocks, w1)
    end.

(** ** Sample inputs

    Concrete paths, worlds and a stub loader on which the statements
    below are instantiated. *)

Module Sample.

Definition workspace_dir : path := ["home"; "u"; ".cache"; "flashinfer"].
Definition jit_dir : path := workspace_dir ++ ["cached_ops"].
Definition include_dir : path := ["opt"; "flashinfer"; "include"].
Definition csrc_dir : path := ["opt"; "flashinfer"; "csrc"].
Definition cutlass_dirs : list path :=
  [ ["opt"; "cutlass"; "include"];
    ["opt"; "cutlass"; "tools"; "util"; "include"] ].

(** A loader that always succeeds and leaves the disk alone. *)
Definition load_ok (a : LoadArgs) (m : gmap path node) : outcome nat * gmap path node :=
  (Returns 0%nat, m).

(** A loader whose compiler fails. *)
Definition load_fails (a : LoadArgs) (m : gmap path node) : outcome nat * gmap path node :=
  (Raises (Exn RuntimeError "Error building extension"), m).

Definition world (disk : gmap path node) (nvcc arch : list string) : World :=
  {| fs := disk; COMMON_NVCC_FLAGS := nvcc; cuda_arch_flags := arch;
     log := []; held_locks := ∅; load_calls := [] |}.

Definition empty_disk : gmap path node := ∅.

(** A disk on which one module, [m], has been built: its build
    directory and its lock file sit in the JIT directory. *)
Definition built_disk : gmap path node :=
  list_to_map
    [ (["home"], Dir); (["home"; "u"], Dir); (["home"; "u"; ".cache"], Dir);
      (workspace_dir, Dir); (jit_dir, Dir);
      (jit_dir ++ ["m"], Dir); (jit_dir ++ ["m.lock"], File) ].

(** A JIT directory that holds regular files only. *)
Definition flat_disk : gmap path node :=
  list_to_map
    [ (workspace_dir, Dir); (jit_dir, Dir);
      (jit_dir ++ ["a.lock"], File); (jit_dir ++ ["b.lock"], File) ].

Definition torch_nvcc_flags : list string :=
  [ "-D__CUDA_NO_HALF_OPERATORS__"; "-D__CUDA_NO_HALF_CONVERSIONS__";
    "-D__CUDA_NO_BFLOAT16_CONVERSIONS__"; "-D__CUDA_NO_HALF2_OPERATORS__";
    "--expt-relaxed-constexpr" ].

Definition sm80 : string := "-gencode=arch=compute_80,code=sm_80".
Definition sm70 : string := "-gencode=arch=compute_70,code=sm_70".

(** A machine with an sm80 device and nothing on disk yet. *)
Definition world_sm80 : World := world empty_disk torch_nvcc_flags [sm80].

(** A build for an sm80 and an sm70 device. *)
Definition world_mixed : World := world empty_disk torch_nvcc_flags [sm80; sm70].

(** A toolchain that hands back a flag string without an architecture. *)
Definition world_no_arch : World :=
  world empty_disk torch_nvcc_flags [sm80; "-gencode=arch=native"].

(** The shared flag list holds one of the unwanted flags twice. *)
Definition world_dup : World :=
  world empty_disk
    [ "-D__CUDA_NO_HALF_OPERATORS__"; "-D__CUDA_NO_HALF_OPERATORS__" ] [sm80].

(** The shared flag list holds only one of the unwanted flags. *)
Definition world_few_flags : World :=
  world empty_disk [ "-O2"; "-D__CUDA_NO_HALF2_OPERATORS__" ] [sm80].

(** The module [m] has been built before. *)
Definition world_built : World := world built_disk torch_nvcc_flags [sm80].

(** Another process is building the module [m] and holds its lock. *)
Definition world_locked : World :=
  {| fs := built_disk; COMMON_NVCC_FLAGS := torch_nvcc_flags;
     cuda_arch_flags := [sm80]; log := [];
     held_locks := {[ jit_dir ++ ["m.lock"] ]}; load_calls := [] |}.

(** A regular file stands where the home directory should be. *)
Definition world_home_file : World :=
  world (<[ ["home"] := File ]> empty_disk) torch_nvcc_flags [sm80].

(** The path of the JIT directory is taken by a regular file. *)
Definition world_jit_file : World :=
  world (list_to_map
           [ (["home"], Dir); (["home"; "u"], Dir); (["home"; "u"; ".cache"], Dir);
             (workspace_dir, Dir); (jit_dir, File) ])
    torch_nvcc_flags [sm80].

(** The workspace path is taken by a regular file. *)
Definition world_ws_file : World :=
  world (<[workspace_dir := File]> empty_disk) torch_nvcc_flags [sm80].

Definition registry : gset string := {[ "batch_decode"; "single_prefill" ]}.

(** The registry module is not installed. *)
Definition no_registry : outcome (gset string) :=
  Raises (Exn ModuleNotFoundError "No module named 'flashinfer.jit.aot_config'").

(** The registry module is there but does not parse. *)
Definition broken_registry : outcome (gset string) :=
  Raises (Exn (OtherError "SyntaxError") "invalid syntax").

(** The arguments of the loader for a plain build of [m]. *)
Definition plain_args : LoadArgs :=
  {| la_name := "m";
     la_sources := ["m.cu"];
     la_extra_cflags := ["-O3"; "-Wno-switch-bool"];
     la_extra_cuda_cflags :=
       [ "-O3"; "-std=c++17"; "--threads"; "4"; "-use_fast_math";
         "-DFLASHINFER_ENABLE_BF16"; "-DFLASHINFER_ENABLE_FP8" ];
     la_extra_ldflags := None;
     la_extra_include_paths :=
       [ "/opt/flashinfer/include"; "/opt/flashinfer/csrc";
         "/opt/cutlass/include"; "/opt/cutlass/tools/util/include" ];
     la_build_directory := jit_dir ++ ["m"];
     la_verbose := false;
     la_with_cuda := true |}.

End Sample.

(** ** The module *)

Section Jit.

(** Names imported from [.env], which sets them from the installation. *)
Variable FLASHINFER_WORKSPACE_DIR : path.
Variable FLASHINFER_JIT_DIR : path.
Variable FLASHINFER_INCLUDE_DIR : path.
Variable FLASHINFER_CSRC_DIR : path.
Variable CUTLASS_INCLUDE_DIRS : list path.

(** [torch.utils.cpp_extension.load]: builds or reuses the extension in
    the build directory and hands back the loaded module; it acts on
    the disk. *)
Variable ext_module : Type.
Variable torch_load : LoadArgs -> gmap path node -> outcome ext_module * gmap path node.

(** What [from .aot_config import prebuilt_ops_uri] does in this
    installation: it yields the registry, or raises. *)
Variable aot_config_import : outcome (gset string).

Definition import_aot_config : M (gset string) :=
  fun w => (aot_config_import, w).

Definition torch_cpp_ext_load (a : LoadArgs) : M ext_module :=
  fun w =>
    let (r, m) := torch_load a (fs w) in
    (r, add_load_call a (set_fs (fun _ => m) w)).

(** Lines 46-52. *)
Definition import_prebuilt_ops : M (gset string * bool) :=
  try_except
    (uri <- import_aot_config ;; ret (uri, true))
    ImportError
    (ret (∅, false)).

(** Lines 54-55. *)
Definition ensure_workspace_dir : M unit :=
  e <- os_path_exists FLASHINFER_WORKSPACE_DIR ;;
  if negb e then os_makedirs FLASHINFER_WORKSPACE_DIR else ret tt.

(** [FlashInferJITLogger.__init__]: the log file is made when missing
    and opened for appending. *)
Definition log_path : path := FLASHINFER_WORKSPACE_DIR ++ ["flashinfer_jit.log"].

Definition logger_init : M unit :=
  e <- os_path_exists log_path ;;
  (if negb e then open_create log_path else ret tt) ;;;
  open_create log_path.

Definition logger_info (msg : string) : M unit :=
  fun w => (Returns tt, add_log ("flashinfer.jit: " +:+ msg) w).

Definition check_arch_flag (cuda_arch_flags : string) : M unit :=
  match Re.search cuda_arch_flags with
  | None => raise AttributeError "'NoneType' object has no attribute 'group'"
  | Some g =>
      let arch := Re.int g in
      if arch <? 75 then raise RuntimeError "FlashInfer requires sm75+"
      else ret tt
  end.

Definition check_cuda_arch : M unit :=
  flags <- _get_cuda_arch_flags ;;
  for_each flags check_arch_flag.

Definition clear_cache_dir : M unit :=
  e <- os_path_exists FLASHINFER_JIT_DIR ;;
  if e then
    files <- os_listdir FLASHINFER_JIT_DIR ;;
    for_each files (fun file => os_remove (FLASHINFER_JIT_DIR ++ [file]))
  else ret tt.

Definition REMOVE_NVCC_FLAGS : list string :=
  [ "-D__CUDA_NO_HALF_OPERATORS__";
    "-D__CUDA_NO_HALF_CONVERSIONS__";
    "-D__CUDA_NO_BFLOAT16_CONVERSIONS__";
    "-D__CUDA_NO_HALF2_OPERATORS__" ].

Definition remove_unwanted_pytorch_nvcc_flags : M unit :=
  for_each REMOVE_NVCC_FLAGS
    (fun flag => try_except (COMMON_NVCC_FLAGS_remove flag) ValueError (ret tt)).

(** The module-level statements, in the order of the file; the result
    is the pair of globals [prebuilt_ops_uri], [has_prebuilt_ops]. *)
Definition module_init : M (gset string * bool) :=
  g <- import_prebuilt_ops ;;
  ensure_workspace_dir ;;;
  logger_init ;;;
  remove_unwanted_pytorch_nvcc_flags ;;;
  ret g.

Definition default_include_paths : list pathlike :=
  [PPath FLASHINFER_INCLUDE_DIR; PPath FLASHINFER_CSRC_DIR]
  ++ map PPath CUTLASS_INCLUDE_DIRS.

(** [load_cuda_ops]; [name] is one path component. The defaults of the
    signature are [extra_cflags = []], [extra_cuda_cflags = []],
    [extra_ldflags = None], [extra_include_paths = None],
    [verbose = False]. *)
Definition load_cuda_ops
    (name : string) (sources : list pathlike)
    (extra_cflags extra_cuda_cflags : list string)
    (extra_ldflags : option (list string))
    (extra_include_paths : option (list pathlike))
    (verbose : bool) : M ext_module :=
  let cflags := ["-O3"; "-Wno-switch-bool"] in
  let cuda_cflags :=
    [ "-O3"; "-std=c++17"; "--threads"; "4"; "-use_fast_math";
      "-DFLASHINFER_ENABLE_BF16"; "-DFLASHINFER_ENABLE_FP8" ] in
  let cflags := cflags ++ extra_cflags in
  let cuda_cflags := cuda_cflags ++ extra_cuda_cflags in
  logger_info ("Loading JIT ops: " +:+ name) ;;;
  check_cuda_arch ;;;
  let build_directory := FLASHINFER_JIT_DIR ++ [name] in
  e <- os_path_exists build_directory ;;
  (if negb e then os_makedirs build_directory else ret tt) ;;;
  let extra_include_paths :=
    match extra_include_paths with
    | None => default_include_paths
    | Some l => l
    end in
  let lock := FLASHINFER_JIT_DIR ++ [name +:+ ".lock"] in
  with_lock lock
    (torch_cpp_ext_load
       {| la_name := name;
          la_sources := map py_str sources;
          la_extra_cflags := cflags;
          la_extra_cuda_cflags := cuda_cflags;
          la_extra_ldflags := extra_ldflags;
          la_extra_include_paths := map py_str extra_include_paths;
          la_build_directory := build_directory;
          la_verbose := verbose;
          la_with_cuda := true |}).

(** ** What the statements speak of *)

(** The kind of the nearest existing ancestor among [anc], the root
    when none of them exists. *)
Fixpoint nearest (m : gmap path node) (anc : list path) : node :=
  match anc with
  | [] => Dir
  | q :: anc' =>
      match m !! q with
      | Some k => k
      | None => nearest m anc'
      end
  end.

(** The kind of the nearest existing proper ancestor of [p]. *)
Definition nearest_ancestor (m : gmap path node) (p : path) : node :=
  nearest m (ancestors p).

(** What [if not os.path.exists(d): os.makedirs(d)] raises on the disk
    [m], if anything. *)
Definition makedirs_error (m : gmap path node) (d : path) : option exn :=
  match node_at m d with
  | Some _ => None
  | None =>
      match makedirs_up m d (ancestors d) with
      | inl _ => None
      | inr e => Some e
      end
  end.

(** The disk after [if not os.path.exists(d): os.makedirs(d)]; a failed
    [os.makedirs] leaves it as it was. *)
Definition ensure_dir (d : path) (m : gmap path node) : gmap path node :=
  match node_at m d with
  | Some _ => m
  | None =>
      match makedirs_up m d (ancestors d) with
      | inl m' => m'
      | inr _ => m
      end
  end.

(** The disk the loader finds when [load_cuda_ops] calls it for the
    module [name] from a disk [m]: the build directory is there and the
    lock file has been opened. *)
Definition disk_at_load (name : string) (m : gmap path node) : gmap path node :=
  touch_lock_file (FLASHINFER_JIT_DIR ++ [name +:+ ".lock"])
    (ensure_dir (FLASHINFER_JIT_DIR ++ [name]) m).

(** The statement [m] removes no entry of the disk and changes the kind
    of none. *)
Definition keeps_entries {A} (m : M A) : Prop :=
  forall (w : World) (p : path) (n : node),
    fs w !! p = Some n -> fs (snd (m w)) !! p = Some n.

(** The flag string carries a [compute_<digits>] marker. *)
Definition has_marker (s : string) : Prop :=
  exists pre ds post : string,
    s = pre +:+ "compute_" +:+ ds +:+ post /\ ds <> "" /\ Re.all_digits ds = true.

(** The architecture number the check reads off a flag string. *)
Definition extracted_arch (s : string) : option Z := Re.int <$> Re.search s.

(** Number of occurrences of a flag in a flag list. *)
Definition occurrences (x : string) (l : list string) : nat :=
  length (filter (eq x) l).

(** The list after one round of the sanitisation loop for the flag [x]:
    the first occurrence is gone, or nothing changed. *)
Definition discard_flag (l : list string) (x : string) : list string :=
  default l (list_remove x l).

(** ** Facts about the regular expression *)

Lemma append_nil_l (r : string) : "" +:+ r = r.
Proof. reflexivity. Qed.

Lemma append_cons (c : ascii) (s r : string) :
  String c s +:+ r = String c (s +:+ r).
Proof. reflexivity. Qed.

Lemma strip_prefix_sound (p s r : string) :
  Re.strip_prefix p s = Some r -> s = p +:+ r.
Proof.
  revert s; induction p as [|a p IH]; intros s H; simpl in H.
  - rewrite append_nil_l. congruence.
  - destruct s as [|b s]; [discriminate|].
    destruct (Ascii.eqb a b) eqn:E; [|discriminate].
    apply Ascii.eqb_eq in E; subst b. rewrite append_cons. f_equal. auto.
Qed.

Lemma strip_prefix_complete (p r : string) :
  Re.strip_prefix p (p +:+ r) = Some r.
Proof.
  induction p as [|a p IH]; [reflexivity|].
  rewrite append_cons. simpl. now rewrite Ascii.eqb_refl.
Qed.

Lemma take_digits_all_digits (s : string) :
  Re.all_digits (Re.take_digits s) = true.
Proof.
  induction s as [|c s IH]; simpl; [reflexivity|].
  destruct (Re.is_digit c) eqn:E; simpl; [|reflexivity].
  now rewrite E.
Qed.

Lemma take_digits_split (s : string) :
  exists r, s = Re.take_digits s +:+ r.
Proof.
  induction s as [|c s [r IH]]; simpl.
  - now exists "".
  - destruct (Re.is_digit c).
    + exists r. rewrite append_cons. now f_equal.
    + now exists (String c s).
Qed.

Lemma take_digits_app_digits (ds post : string) :
  Re.all_digits ds = true -> ds <> "" -> Re.take_digits (ds +:+ post) <> "".
Proof.
  destruct ds as [|c ds]; [congruence|]. rewrite append_cons. simpl.
  intros H _. apply andb_true_iff in H as [-> _]. discriminate.
Qed.

Lemma search_unfold (s : string) :
  Re.search s =
    match Re.match_here s with
    | Some g => Some g
    | None => match s with
              | EmptyString => None
              | String _ s' => Re.search s'
              end
    end.
Proof. destruct s; reflexivity. Qed.

Lemma match_here_marker (s g : string) :
  Re.match_here s = Some g -> has_marker s.
Proof.
  unfold Re.match_here.
  destruct (Re.strip_prefix "compute_" s) as [rest|] eqn:P; [|discriminate].
  apply strip_prefix_sound in P.
  destruct (Re.take_digits rest) as [|c ds] eqn:T; [discriminate|].
  intros _. destruct (take_digits_split rest) as [post R].
  exists "", (String c ds), post. split; [|split].
  - rewrite <- T, <- R. exact P.
  - discriminate.
  - rewrite <- T. apply take_digits_all_digits.
Qed.

Lemma has_marker_cons (c : ascii) (s : string) :
  has_marker s -> has_marker (String c s).
Proof.
  intros (pre & ds & post & -> & Hne & Hd).
  now exists (String c pre), ds, post.
Qed.

Lemma search_marker (s g : string) :
  Re.search s = Some g -> has_marker s.
Proof.
  induction s as [|c s IH]; rewrite search_unfold.
  - destruct (Re.match_here "") eqn:E; [|discriminate].
    intros _. eapply match_here_marker, E.
  - destruct (Re.match_here (String c s)) eqn:E.
    + intros _. eapply match_here_marker, E.
    + intros H. apply has_marker_cons. auto.
Qed.

Lemma marker_search (s : string) :
  has_marker s -> is_Some (Re.search s).
Proof.
  intros (pre & ds & post & -> & Hne & Hd).
  induction pre as [|c pre IH]; rewrite search_unfold.
  - unfold Re.match_here.
    change ("" +:+ "compute_" +:+ ds +:+ post)
      with ("compute_" +:+ (ds +:+ post)).
    rewrite strip_prefix_complete.
    pose proof (take_digits_app_digits ds post Hd Hne) as T.
    destruct (Re.take_digits (ds +:+ post)); [congruence|eauto].
  - destruct (Re.match_here _); [eauto|]. exact IH.
Qed.

(** The search fails exactly on the strings without a marker. *)
Lemma search_None_iff (s : string) :
  Re.search s = None <-> ~ has_marker s.
Proof.
  split.
  - intros H M. apply marker_search in M as [g M]. congruence.
  - intros H. destruct (Re.search s) eqn:E; [|reflexivity].
    exfalso. eauto using search_marker.
Qed.

Lemma extracted_arch_marker (s : string) :
  is_Some (extracted_arch s) <-> has_marker s.
Proof.
  unfold extracted_arch. rewrite fmap_is_Some. split.
  - intros [g H]. eauto using search_marker.
  - apply marker_search.
Qed.

(** ** The effect monad *)

Lemma for_each_cons {A} (x : A) (l : list A) (body : A -> M unit) (w : World) :
  for_each (x :: l) body w =
    match body x w with
    | (Returns _, w') => for_each l body w'
    | (Raises e, w') => (Raises e, w')
    | (Blocks, w') => (Blocks, w')
    end.
Proof. reflexivity. Qed.

(** ** The capability check *)

Lemma check_arch_flag_world (s : string) (w : World) :
  snd (check_arch_flag s w) = w.
Proof.
  unfold check_arch_flag. destruct (Re.search s); [|reflexivity].
  now destruct (_ <? _).
Qed.

Lemma check_arch_flag_returns (s : string) (w : World) :
  fst (check_arch_flag s w) = Returns tt <->
  exists n, extracted_arch s = Some n /\ 75 <= n.
Proof.
  unfold check_arch_flag, extracted_arch.
  destruct (Re.search s) as [g|]; simpl.
  - destruct (Z.ltb_spec (Re.int g) 75); simpl; split.
    + discriminate.
    + intros (n & [= <-] & ?). lia.
    + eauto.
    + reflexivity.
  - split; [discriminate|]. now intros (n & ? & _).
Qed.

Lemma check_arch_flag_rejects (s : string) (w : World) :
  fst (check_arch_flag s w) = Raises (Exn RuntimeError "FlashInfer requires sm75+") <->
  exists n, extracted_arch s = Some n /\ n < 75.
Proof.
  unfold check_arch_flag, extracted_arch.
  destruct (Re.search s) as [g|]; simpl.
  - destruct (Z.ltb_spec (Re.int g) 75); simpl; split.
    + eauto.
    + reflexivity.
    + discriminate.
    + intros (n & [= <-] & ?). lia.
  - split; [discriminate|]. now intros (n & ? & _).
Qed.

Lemma check_arch_flag_no_match (s : string) (w : World) :
  fst (check_arch_flag s w) =
    Raises (Exn AttributeError "'NoneType' object has no attribute 'group'") <->
  ~ has_marker s.
Proof.
  rewrite <- search_None_iff. unfold check_arch_flag.
  destruct (Re.search s) as [g|]; simpl.
  - split; [|discriminate]. now destruct (_ <? _).
  - tauto.
Qed.

(** One flag string is accepted, rejected as too old, or not understood;
    nothing else happens. *)
Lemma check_arch_flag_cases (s : string) (w : World) :
  (check_arch_flag s w = (Returns tt, w)
   /\ exists n, extracted_arch s = Some n /\ 75 <= n)
  \/ (check_arch_flag s w = (Raises (Exn RuntimeError "FlashInfer requires sm75+"), w)
      /\ exists n, extracted_arch s = Some n /\ n < 75)
  \/ (check_arch_flag s w =
        (Raises (Exn AttributeError "'NoneType' object has no attribute 'group'"), w)
      /\ ~ has_marker s).
Proof.
  pose proof (check_arch_flag_world s w) as Hw.
  destruct (check_arch_flag s w) as [o w'] eqn:E. simpl in Hw; subst w'.
  pose proof (check_arch_flag_returns s w) as H1.
  pose proof (check_arch_flag_rejects s w) as H2.
  pose proof (check_arch_flag_no_match s w) as H3.
  rewrite E in H1, H2, H3. simpl in *.
  unfold check_arch_flag in E.
  destruct (Re.search s) as [g|].
  - destruct (_ <? _); injection E as <-.
    + right; left. split; [reflexivity|]. now apply H2.
    + left. split; [reflexivity|]. now apply H1.
  - injection E as <-. right; right. split; [reflexivity|]. now apply H3.
Qed.

(** The loop over a list of flag strings: the first string that is not
    accepted decides. *)
Lemma check_loop_accepts (flags : list string) (w : World) :
  (forall s, s ∈ flags -> exists n, extracted_arch s = Some n /\ 75 <= n) ->
  for_each flags check_arch_flag w = (Returns tt, w).
Proof.
  induction flags as [|s flags IH]; intros H; [reflexivity|].
  rewrite for_each_cons.
  destruct (check_arch_flag_cases s w) as [[E _]|[[E (n & Hn & Hlt)]|[E Hm]]];
    rewrite E.
  - apply IH. intros s' Hs'. apply H. now right.
  - destruct (H s) as (n' & Hn' & Hge); [now left|]. rewrite Hn in Hn'.
    injection Hn' as <-. lia.
  - destruct (H s) as (n' & Hn' & _); [now left|].
    exfalso. apply Hm, extracted_arch_marker. eauto.
Qed.

Lemma check_loop_rejects (pre post : list string) (s : string) (n : Z) (w : World) :
  (forall p, p ∈ pre -> exists k, extracted_arch p = Some k /\ 75 <= k) ->
  extracted_arch s = Some n -> n < 75 ->
  for_each (pre ++ s :: post) check_arch_flag w =
    (Raises (Exn RuntimeError "FlashInfer requires sm75+"), w).
Proof.
  induction pre as [|p pre IH]; intros H Hn Hlt; simpl app; rewrite for_each_cons.
  - destruct (check_arch_flag_cases s w) as [[E (k & Hk & Hge)]|[[E _]|[E Hm]]];
      rewrite E.
    + rewrite Hn in Hk. injection Hk as <-. lia.
    + reflexivity.
    + exfalso. apply Hm, extracted_arch_marker. eauto.
  - destruct (check_arch_flag_cases p w) as [[E _]|[[E (k & Hk & Hlt')]|[E Hm]]];
      rewrite E.
    + apply IH; auto. intros q Hq. apply H. now right.
    + destruct (H p) as (k' & Hk' & Hge); [now left|]. rewrite Hk in Hk'.
      injection Hk' as <-. lia.
    + destruct (H p) as (k' & Hk' & _); [now left|].
      exfalso. apply Hm, extracted_arch_marker. eauto.
Qed.

Lemma check_loop_no_match (pre post : list string) (s : string) (w : World) :
  (forall p, p ∈ pre -> exists k, extracted_arch p = Some k /\ 75 <= k) ->
  ~ has_marker s ->
  for_each (pre ++ s :: post) check_arch_flag w =
    (Raises (Exn AttributeError "'NoneType' object has no attribute 'group'"), w).
Proof.
  induction pre as [|p pre IH]; intros H Hs; simpl app; rewrite for_each_cons.
  - destruct (check_arch_flag_cases s w) as [[E (k & Hk & _)]|[[E (k & Hk & _)]|[E _]]];
      rewrite E.
    + exfalso. apply Hs, extracted_arch_marker. eauto.
    + exfalso. apply Hs, extracted_arch_marker. eauto.
    + reflexivity.
  - destruct (check_arch_flag_cases p w) as [[E _]|[[E (k & Hk & Hlt')]|[E Hm]]];
      rewrite E.
    + apply IH; auto. intros q Hq. apply H. now right.
    + destruct (H p) as (k' & Hk' & Hge); [now left|]. rewrite Hk in Hk'.
      injection Hk' as <-. lia.
    + destruct (H p) as (k' & Hk' & _); [now left|].
      exfalso. apply Hm, extracted_arch_marker. eauto.
Qed.

(** Every run of the loop is one of the three above. *)
Lemma check_loop_cases (flags : list string) (w : World) :
  (for_each flags check_arch_flag w = (Returns tt, w)
   /\ forall s, s ∈ flags -> exists n, extracted_arch s = Some n /\ 75 <= n)
  \/ (exists pre s post n,
        flags = pre ++ s :: post
        /\ (forall p, p ∈ pre -> exists k, extracted_arch p = Some k /\ 75 <= k)
        /\ extracted_arch s = Some n /\ n < 75)
  \/ (exists pre s post,
        flags = pre ++ s :: post
        /\ (forall p, p ∈ pre -> exists k, extracted_arch p = Some k /\ 75 <= k)
        /\ ~ has_marker s).
Proof.
  induction flags as [|s flags IH].
  - left. split; [reflexivity|]. intros s Hs. inversion Hs.
  - destruct (check_arch_flag_cases s w) as [[E Hs]|[[E (n & Hn & Hlt)]|[E Hm]]].
    + destruct IH as [[El Hall]|[(pre & t & post & n & -> & Hpre & Hn & Hlt)
                                |(pre & t & post & -> & Hpre & Hm)]].
      * left. split.
        -- rewrite for_each_cons, E. exact El.
        -- intros t Ht. apply elem_of_cons in Ht as [->|Ht]; auto.
      * right; left. exists (s :: pre), t, post, n. repeat split; auto.
        intros p Hp. apply elem_of_cons in Hp as [->|Hp]; auto.
      * right; right. exists (s :: pre), t, post. repeat split; auto.
        intros p Hp. apply elem_of_cons in Hp as [->|Hp]; auto.
    + right; left. exists [], s, flags, n. repeat split; auto.
      intros p Hp. inversion Hp.
    + right; right. exists [], s, flags. repeat split; auto.
      intros p Hp. inversion Hp.
Qed.

Lemma check_cuda_arch_unfold (w : World) :
  check_cuda_arch w = for_each (cuda_arch_flags w) check_arch_flag w.
Proof. reflexivity. Qed.

(** C1. When every flag string returned by the toolchain carries a
    [compute_<digits>] marker, [check_cuda_arch] raises if and only if
    one of the extracted architecture numbers is below 75, what it
    raises is the sm75 error, and it returns normally when every
    extracted number is at least 75. *)
Theorem check_cuda_arch_threshold (w : World) :
  Forall has_marker (cuda_arch_flags w) ->
  ((exists e, fst (check_cuda_arch w) = Raises e) <->
   (exists s n, s ∈ cuda_arch_flags w /\ extracted_arch s = Some n /\ n < 75))
  /\ (forall e, fst (check_cuda_arch w) = Raises e ->
        e = Exn RuntimeError "FlashInfer requires sm75+")
  /\ ((forall s, s ∈ cuda_arch_flags w ->
         exists n, extracted_arch s = Some n /\ 75 <= n) ->
      check_cuda_arch w = (Returns tt, w)).
Proof.
  intros Hall. rewrite check_cuda_arch_unfold.
  assert (Hok : (forall s, s ∈ cuda_arch_flags w ->
                   exists n, extracted_arch s = Some n /\ 75 <= n) ->
                forall s n, s ∈ cuda_arch_flags w ->
                  extracted_arch s = Some n -> n < 75 -> False).
  { intros H s n Hs Hn Hlt. destruct (H s Hs) as (k & Hk & Hge).
    rewrite Hn in Hk. injection Hk as <-. lia. }
  destruct (check_loop_cases (cuda_arch_flags w) w)
    as [[E Hge]|[(pre & s & post & n & Hfl & Hpre & Hn & Hlt)
                |(pre & s & post & Hfl & Hpre & Hm)]].
  - rewrite E. simpl. split; [split|split].
    + intros [e He]. discriminate.
    + intros (s & n & Hs & Hn & Hlt). exfalso. eauto.
    + discriminate.
    + reflexivity.
  - assert (Hs : s ∈ cuda_arch_flags w).
    { rewrite Hfl. apply elem_of_app. right. now left. }
    pose proof (check_loop_rejects pre post s n w Hpre Hn Hlt) as E.
    rewrite <- Hfl in E. rewrite E. simpl. split; [split|split].
    + eauto 6.
    + eauto.
    + now intros e [= <-].
    + intros H. exfalso. eauto.
  - exfalso. apply Hm. rewrite Forall_forall in Hall. apply Hall.
    rewrite Hfl. apply elem_of_app. right. now left.
Qed.

(** C9. With a marker in every flag string the search always matches
    and the check ends by returning or by the sm75 rejection; without
    that precondition it never returns normally, and a flag string
    without a marker, once the loop reaches it, ends the check with the
    attribute error of [None.group]. *)
Theorem check_cuda_arch_needs_markers :
  (forall s, has_marker s -> is_Some (Re.search s))
  /\ (forall w, Forall has_marker (cuda_arch_flags w) ->
        check_cuda_arch w = (Returns tt, w)
        \/ check_cuda_arch w = (Raises (Exn RuntimeError "FlashInfer requires sm75+"), w))
  /\ (forall w, ~ Forall has_marker (cuda_arch_flags w) ->
        exists e, fst (check_cuda_arch w) = Raises e)
  /\ (forall w pre s post,
        cuda_arch_flags w = pre ++ s :: post ->
        (forall p, p ∈ pre -> exists k, extracted_arch p = Some k /\ 75 <= k) ->
        ~ has_marker s ->
        check_cuda_arch w =
          (Raises (Exn AttributeError "'NoneType' object has no attribute 'group'"), w)).
Proof.
  split; [exact marker_search|]. split; [|split].
  - intros w Hall. rewrite check_cuda_arch_unfold.
    destruct (check_loop_cases (cuda_arch_flags w) w)
      as [[E _]|[(pre & s & post & n & Hfl & Hpre & Hn & Hlt)
                |(pre & s & post & Hfl & Hpre & Hm)]].
    + now left.
    + right. pose proof (check_loop_rejects pre post s n w Hpre Hn Hlt) as E.
      now rewrite <- Hfl in E.
    + exfalso. apply Hm. rewrite Forall_forall in Hall. apply Hall.
      rewrite Hfl. apply elem_of_app. right. now left.
  - intros w Hnot. rewrite check_cuda_arch_unfold.
    destruct (check_loop_cases (cuda_arch_flags w) w)
      as [[_ Hge]|[(pre & s & post & n & Hfl & Hpre & Hn & Hlt)
                  |(pre & s & post & Hfl & Hpre & Hm)]].
    + exfalso. apply Hnot, Forall_forall. intros s Hs.
      apply extracted_arch_marker. destruct (Hge s Hs) as (n & -> & _). eauto.
    + pose proof (check_loop_rejects pre post s n w Hpre Hn Hlt) as E.
      rewrite <- Hfl in E. rewrite E. eauto.
    + pose proof (check_loop_no_match pre post s w Hpre Hm) as E.
      rewrite <- Hfl in E. rewrite E. eauto.
  - intros w pre s post Hfl Hpre Hm. rewrite check_cuda_arch_unfold.
    pose proof (check_loop_no_match pre post s w Hpre Hm) as E.
    now rewrite <- Hfl in E.
Qed.

(** ** Flag sanitisation *)

Lemma list_remove_None (x : string) (l : list string) :
  list_remove x l = None <-> x ∉ l.
Proof.
  induction l as [|y l IH]; simpl.
  - split; [|reflexivity]. intros _ H. inversion H.
  - rewrite not_elem_of_cons. destruct (decide (x = y)) as [->|Hne].
    + split; [discriminate|]. now intros [? _].
    + destruct (list_remove x l); split; try discriminate; try tauto.
      intros [_ H]. now apply IH in H.
Qed.

Lemma discard_flag_absent (x : string) (l : list string) :
  x ∉ l -> discard_flag l x = l.
Proof.
  intros H. apply list_remove_None in H. unfold discard_flag. now rewrite H.
Qed.

Lemma occurrences_cons (x y : string) (l : list string) :
  occurrences x (y :: l) =
    if decide (x = y) then S (occurrences x l) else occurrences x l.
Proof.
  unfold occurrences. rewrite filter_cons.
  now destruct (decide (x = y)).
Qed.

Lemma occurrences_zero (x : string) (l : list string) :
  occurrences x l = 0%nat <-> x ∉ l.
Proof.
  induction l as [|y l IH].
  - split; [|reflexivity]. intros _ H. inversion H.
  - rewrite occurrences_cons, not_elem_of_cons.
    destruct (decide (x = y)); split; try discriminate; tauto.
Qed.

Lemma occurrences_discard (x y : string) (l : list string) :
  occurrences y (discard_flag l x) =
    if decide (x = y) then Nat.pred (occurrences y l) else occurrences y l.
Proof.
  unfold discard_flag. induction l as [|z l IH]; simpl.
  - now destruct (decide (x = y)).
  - rewrite occurrences_cons.
    destruct (decide (x = z)) as [Hxz|Hxz]; simpl.
    + destruct (decide (y = z)), (decide (x = y)); simpl; congruence.
    + destruct (list_remove x l) as [r|]; simpl in IH |- *.
      * rewrite occurrences_cons, IH.
        destruct (decide (y = z)), (decide (x = y)); simpl; congruence.
      * rewrite occurrences_cons, IH.
        destruct (decide (y = z)), (decide (x = y)); simpl; congruence.
Qed.

Lemma occurrences_foldl_discard (fl : list string) (y : string) (l : list string) :
  NoDup fl ->
  occurrences y (foldl discard_flag l fl) =
    if decide (y ∈ fl) then Nat.pred (occurrences y l) else occurrences y l.
Proof.
  revert l. induction fl as [|x fl IH]; intros l Hnd.
  - simpl. destruct (decide (y ∈ [])) as [H|H]; [inversion H|reflexivity].
  - apply NoDup_cons in Hnd as [Hx Hnd]. cbn [foldl].
    rewrite IH by assumption. rewrite occurrences_discard.
    destruct (decide (x = y)) as [Hxy|Hxy];
      destruct (decide (y ∈ fl)) as [Hy|Hy];
      destruct (decide (y ∈ x :: fl)) as [Hyx|Hyx];
      try reflexivity; exfalso; rewrite elem_of_cons in Hyx;
      intuition congruence.
Qed.

Lemma foldl_discard_absent (fl l : list string) :
  (forall x, x ∈ fl -> x ∉ l) -> foldl discard_flag l fl = l.
Proof.
  induction fl as [|x fl IH]; intros H; simpl; [reflexivity|].
  rewrite discard_flag_absent.
  - apply IH. intros y Hy. apply H. now right.
  - apply H. now left.
Qed.

Lemma REMOVE_NVCC_FLAGS_NoDup : NoDup REMOVE_NVCC_FLAGS.
Proof.
  unfold REMOVE_NVCC_FLAGS.
  repeat (apply NoDup_cons; split;
          [intros H; repeat (apply elem_of_cons in H as [H|H]; [discriminate|]);
           inversion H|]).
  apply NoDup_nil_2.
Qed.

Lemma set_nvcc_flags_same (w : World) :
  set_nvcc_flags (COMMON_NVCC_FLAGS w) w = w.
Proof. now destruct w. Qed.

(** One round of the loop: the [ValueError] of a missing flag is caught
    and the world is as before. *)
Lemma sanitize_round (x : string) (w : World) :
  try_except (COMMON_NVCC_FLAGS_remove x) ValueError (ret tt) w =
    (Returns tt, set_nvcc_flags (discard_flag (COMMON_NVCC_FLAGS w) x) w).
Proof.
  unfold try_except, COMMON_NVCC_FLAGS_remove, discard_flag.
  destruct (list_remove x (COMMON_NVCC_FLAGS w)); simpl.
  - reflexivity.
  - now rewrite set_nvcc_flags_same.
Qed.

Lemma sanitize_rounds (fl : list string) (w : World) :
  for_each fl
    (fun flag => try_except (COMMON_NVCC_FLAGS_remove flag) ValueError (ret tt)) w =
    (Returns tt, set_nvcc_flags (foldl discard_flag (COMMON_NVCC_FLAGS w) fl) w).
Proof.
  revert w. induction fl as [|x fl IH]; intros w.
  - simpl. unfold ret. now rewrite set_nvcc_flags_same.
  - rewrite for_each_cons, sanitize_round, IH. now destruct w.
Qed.

Lemma remove_unwanted_spec (w : World) :
  remove_unwanted_pytorch_nvcc_flags w =
    (Returns tt,
     set_nvcc_flags (foldl discard_flag (COMMON_NVCC_FLAGS w) REMOVE_NVCC_FLAGS) w).
Proof. apply sanitize_rounds. Qed.

(** C4, as amended. Running the sanitisation twice leaves the shared
    flag list as one run leaves it exactly when none of the four
    removed flags occurs more than once in the initial list; other
    entries may repeat. *)
Theorem sanitize_twice_iff (w : World) :
  snd (remove_unwanted_pytorch_nvcc_flags
         (snd (remove_unwanted_pytorch_nvcc_flags w)))
    = snd (remove_unwanted_pytorch_nvcc_flags w)
  <-> forall flag, flag ∈ REMOVE_NVCC_FLAGS ->
        (occurrences flag (COMMON_NVCC_FLAGS w) <= 1)%nat.
Proof.
  rewrite !remove_unwanted_spec. cbn [snd set_nvcc_flags COMMON_NVCC_FLAGS].
  generalize (COMMON_NVCC_FLAGS w). intros l.
  pose proof REMOVE_NVCC_FLAGS_NoDup as Hnd.
  generalize dependent REMOVE_NVCC_FLAGS. intros fl Hnd.
  split.
  - intros H flag Hin.
    assert (E : foldl discard_flag (foldl discard_flag l fl) fl
                = foldl discard_flag l fl).
    { apply (f_equal COMMON_NVCC_FLAGS) in H. exact H. }
    apply (f_equal (occurrences flag)) in E.
    rewrite !occurrences_foldl_discard in E by assumption.
    destruct (decide (flag ∈ fl)); [|contradiction].
    destruct (occurrences flag l) as [|[|k]]; simpl in E; lia.
  - intros H.
    assert (E : foldl discard_flag (foldl discard_flag l fl) fl
                = foldl discard_flag l fl).
    { apply foldl_discard_absent. intros x Hx.
      apply occurrences_zero.
      rewrite occurrences_foldl_discard by assumption.
      destruct (decide (x ∈ fl)); [|contradiction].
      specialize (H x Hx). destruct (occurrences x l) as [|[|k]]; simpl; lia. }
    now rewrite E.
Qed.

(** C6. Removing a flag that is not in the shared list raises
    [ValueError] inside the [try], the handler swallows it and the list
    stays as it was; the sanitisation as a whole always returns
    normally, and every one of the four flags, whichever of the others
    were missing, has lost one occurrence if it had any, while all other
    entries are kept. *)
Theorem sanitize_ignores_missing :
  (forall flag w, flag ∉ COMMON_NVCC_FLAGS w ->
     (exists msg, COMMON_NVCC_FLAGS_remove flag w = (Raises (Exn ValueError msg), w))
     /\ try_except (COMMON_NVCC_FLAGS_remove flag) ValueError (ret tt) w
        = (Returns tt, w))
  /\ (forall w, fst (remove_unwanted_pytorch_nvcc_flags w) = Returns tt)
  /\ (forall w flag, flag ∈ REMOVE_NVCC_FLAGS ->
        occurrences flag (COMMON_NVCC_FLAGS (snd (remove_unwanted_pytorch_nvcc_flags w)))
        = Nat.pred (occurrences flag (COMMON_NVCC_FLAGS w)))
  /\ (forall w x, x ∉ REMOVE_NVCC_FLAGS ->
        occurrences x (COMMON_NVCC_FLAGS (snd (remove_unwanted_pytorch_nvcc_flags w)))
        = occurrences x (COMMON_NVCC_FLAGS w)).
Proof.
  split; [|split; [|split]].
  - intros flag w H. apply list_remove_None in H.
    unfold try_except, COMMON_NVCC_FLAGS_remove. rewrite H. simpl. eauto.
  - intros w. now rewrite remove_unwanted_spec.
  - intros w flag H. rewrite remove_unwanted_spec.
    cbn [snd set_nvcc_flags COMMON_NVCC_FLAGS].
    rewrite occurrences_foldl_discard by apply REMOVE_NVCC_FLAGS_NoDup.
    now rewrite decide_True.
  - intros w x H. rewrite remove_unwanted_spec.
    cbn [snd set_nvcc_flags COMMON_NVCC_FLAGS].
    rewrite occurrences_foldl_discard by apply REMOVE_NVCC_FLAGS_NoDup.
    now rewrite decide_False.
Qed.

(** ** The file system *)

Lemma set_fs_same (w : World) (f : gmap path node -> gmap path node) :
  f (fs w) = fs w -> set_fs f w = w.
Proof. destruct w. unfold set_fs. simpl. now intros ->. Qed.

Lemma set_fs_ext (f g : gmap path node -> gmap path node) (w : World) :
  f (fs w) = g (fs w) -> set_fs f w = set_fs g w.
Proof. intros H. unfold set_fs. now rewrite H. Qed.

Lemma node_at_cons (m : gmap path node) (c : string) (p : path) :
  node_at m (c :: p) = m !! (c :: p).
Proof. reflexivity. Qed.

Lemma node_at_snoc (m : gmap path node) (d : path) (n : string) :
  node_at m (d ++ [n]) = m !! (d ++ [n]).
Proof. now destruct d. Qed.

Lemma node_at_Some_lookup (m : gmap path node) (p : path) (n : node) :
  m !! p = Some n -> is_Some (node_at m p).
Proof. destruct p; simpl; eauto. Qed.

Lemma prefixes_last (p : path) : p <> [] -> p ∈ prefixes p.
Proof.
  induction p as [|c p IH]; [congruence|]. intros _. simpl.
  destruct p as [|d p].
  - now left.
  - right. apply list_elem_of_In, in_map, list_elem_of_In, IH. discriminate.
Qed.

Lemma prefixes_length (p q : path) :
  q ∈ prefixes p -> (0 < length q <= length p)%nat.
Proof.
  revert q. induction p as [|c p IH]; intros q H; simpl in H; [inversion H|].
  apply elem_of_cons in H as [->|H]; [simpl; lia|].
  apply list_elem_of_In, in_map_iff in H as (r & <- & Hr).
  apply list_elem_of_In, IH in Hr. simpl. lia.
Qed.

Lemma NoDup_map_cons (c : string) (l : list path) :
  NoDup l -> NoDup (map (cons c) l).
Proof.
  induction l as [|x l IH]; intros H; simpl; [constructor|].
  apply NoDup_cons in H as [Hx Hl]. apply NoDup_cons. split; [|auto].
  intros Hin. apply list_elem_of_In, in_map_iff in Hin as (y & Hy & Hin).
  injection Hy as ->. now apply list_elem_of_In in Hin.
Qed.

Lemma prefixes_NoDup (p : path) : NoDup (prefixes p).
Proof.
  induction p as [|c p IH]; simpl; [constructor|].
  apply NoDup_cons. split.
  - intros H. apply list_elem_of_In, in_map_iff in H as (r & Hr & Hin).
    injection Hr as ->. apply list_elem_of_In, prefixes_length in Hin.
    simpl in Hin. lia.
  - now apply NoDup_map_cons.
Qed.

Lemma prefixes_snoc (d : path) (x : string) :
  prefixes (d ++ [x]) = prefixes d ++ [d ++ [x]].
Proof.
  induction d as [|c d IH]; [reflexivity|].
  simpl. rewrite IH, map_app. reflexivity.
Qed.

Lemma ancestors_snoc (d : path) (x : string) :
  ancestors (d ++ [x]) = reverse (prefixes d).
Proof. unfold ancestors. now rewrite removelast_last. Qed.

Lemma ancestors_parent (d : path) (x : string) :
  d <> [] -> ancestors (d ++ [x]) = d :: ancestors d.
Proof.
  intros Hd. rewrite ancestors_snoc.
  rewrite (app_removelast_last "" Hd) at 1.
  rewrite prefixes_snoc, reverse_snoc.
  now rewrite <- (app_removelast_last "" Hd).
Qed.

Lemma ancestors_length (p q : path) :
  q ∈ ancestors p -> (0 < length q < length p)%nat.
Proof.
  unfold ancestors. rewrite elem_of_reverse. intros H.
  apply prefixes_length in H.
  destruct p as [|c p]; [simpl in H; lia|].
  assert (Hp : c :: p <> []) by discriminate.
  assert (Hl : length (c :: p) = S (length (removelast (c :: p)))).
  { rewrite (app_removelast_last "" Hp) at 1. rewrite length_app. simpl. lia. }
  lia.
Qed.

Lemma ancestors_NoDup (p : path) : NoDup (p :: ancestors p).
Proof.
  apply NoDup_cons. split.
  - intros H. apply ancestors_length in H. lia.
  - unfold ancestors. rewrite reverse_Permutation. apply prefixes_NoDup.
Qed.

Lemma mkdir_inl (m : gmap path node) (q : path) (k : node) (m' : gmap path node) :
  mkdir m q k = inl m' -> m !! q = None /\ k = Dir /\ m' = <[q := Dir]> m.
Proof.
  unfold mkdir. destruct (m !! q); [discriminate|].
  destruct k; [discriminate|]. now intros [= <-].
Qed.

(** A successful [os.makedirs] keeps what was there, makes the path a
    directory, and adds nothing but directories at the path and at its
    ancestors. *)
Lemma makedirs_up_keeps (anc : list path) (m : gmap path node) (p : path)
    (m' : gmap path node) (x : path) (n : node) :
  makedirs_up m p anc = inl m' -> m !! x = Some n -> m' !! x = Some n.
Proof.
  revert m p m'. induction anc as [|h anc IH]; intros m p m' H Hx; simpl in H.
  - apply mkdir_inl in H as (Hq & _ & ->).
    rewrite lookup_insert_ne; [exact Hx|congruence].
  - destruct (m !! h) as [k|] eqn:Eh.
    + apply mkdir_inl in H as (Hq & _ & ->).
      rewrite lookup_insert_ne; [exact Hx|congruence].
    + destruct (makedirs_up m h anc) as [m1|e] eqn:E1; [|discriminate].
      apply mkdir_inl in H as (Hq & _ & ->).
      rewrite lookup_insert_ne; [now apply (IH m h m1)|].
      intros <-. rewrite (IH m h m1 E1 Hx) in Hq. discriminate.
Qed.

Lemma makedirs_up_made (anc : list path) (m : gmap path node) (p : path)
    (m' : gmap path node) :
  makedirs_up m p anc = inl m' -> m' !! p = Some Dir.
Proof.
  destruct anc as [|h anc]; simpl; intros H.
  - apply mkdir_inl in H as (_ & _ & ->). apply lookup_insert_eq.
  - destruct (m !! h).
    + apply mkdir_inl in H as (_ & _ & ->). apply lookup_insert_eq.
    + destruct (makedirs_up m h anc); [|discriminate].
      apply mkdir_inl in H as (_ & _ & ->). apply lookup_insert_eq.
Qed.

Lemma makedirs_up_new (anc : list path) (m : gmap path node) (p : path)
    (m' : gmap path node) (x : path) (n : node) :
  makedirs_up m p anc = inl m' -> m' !! x = Some n ->
  m !! x = Some n \/ (n = Dir /\ x ∈ p :: anc).
Proof.
  revert m p m'. induction anc as [|h anc IH]; intros m p m' H Hx; simpl in H.
  - apply mkdir_inl in H as (_ & _ & ->).
    apply lookup_insert_Some in Hx as [[<- <-]|[_ Hx]]; [|now left].
    right. split; [reflexivity|now left].
  - destruct (m !! h) as [k|] eqn:Eh.
    + apply mkdir_inl in H as (_ & _ & ->).
      apply lookup_insert_Some in Hx as [[<- <-]|[_ Hx]]; [|now left].
      right. split; [reflexivity|now left].
    + destruct (makedirs_up m h anc) as [m1|e] eqn:E1; [|discriminate].
      apply mkdir_inl in H as (_ & _ & ->).
      apply lookup_insert_Some in Hx as [[<- <-]|[_ Hx]].
      * right. split; [reflexivity|now left].
      * destruct (IH m h m1 E1 Hx) as [?|[-> Hin]]; [now left|].
        right. split; [reflexivity|now right].
Qed.

Lemma nearest_ext (anc : list path) (m1 m2 : gmap path node) :
  (forall x, x ∈ anc -> m1 !! x = m2 !! x) -> nearest m1 anc = nearest m2 anc.
Proof.
  induction anc as [|h anc IH]; intros H; [reflexivity|]. simpl.
  rewrite (H h) by now left. destruct (m2 !! h); [reflexivity|].
  apply IH. intros x Hx. apply H. now right.
Qed.

(** [os.makedirs] succeeds on a missing path exactly when the nearest
    existing ancestor is a directory. *)
Lemma makedirs_up_ok (anc : list path) (m : gmap path node) (p : path) :
  m !! p = None -> NoDup (p :: anc) -> nearest m anc = Dir ->
  exists m', makedirs_up m p anc = inl m'.
Proof.
  revert p. induction anc as [|h anc IH]; intros p Hp Hnd Hn; simpl.
  - unfold mkdir. rewrite Hp. eauto.
  - simpl in Hn. apply NoDup_cons in Hnd as [Hpn Hnd].
    destruct (m !! h) as [k|] eqn:Eh.
    + subst k. unfold mkdir. rewrite Hp. eauto.
    + destruct (IH h Eh Hnd Hn) as [m1 E1]. rewrite E1.
      unfold mkdir. destruct (m1 !! p) as [k|] eqn:E; [|eauto].
      exfalso. destruct (makedirs_up_new anc m h m1 p k E1 E) as [H|[_ H]].
      * congruence.
      * contradiction.
Qed.

Lemma makedirs_up_blocked (anc : list path) (m : gmap path node) (p : path) :
  m !! p = None -> nearest m anc = File ->
  exists msg, makedirs_up m p anc = inr (Exn NotADirectoryError msg).
Proof.
  revert p. induction anc as [|h anc IH]; intros p Hp Hn; simpl in *.
  - discriminate.
  - destruct (m !! h) as [k|] eqn:Eh.
    + subst k. unfold mkdir. rewrite Hp. eauto.
    + destruct (IH h Eh Hn) as [msg ->]. eauto.
Qed.

(** *** The statement [if not os.path.exists(d): os.makedirs(d)] *)

Lemma makedirs_error_ok (m : gmap path node) (d : path) :
  is_Some (node_at m d) \/ nearest_ancestor m d = Dir -> makedirs_error m d = None.
Proof.
  unfold makedirs_error, nearest_ancestor.
  destruct (node_at m d) as [k|] eqn:E; [reflexivity|].
  intros [[? ?]|H]; [discriminate|].
  destruct d as [|c d]; [discriminate|]. rewrite node_at_cons in E.
  destruct (makedirs_up_ok _ m (c :: d) E (ancestors_NoDup _) H) as [m' ->].
  reflexivity.
Qed.

Lemma makedirs_error_blocked (m : gmap path node) (d : path) :
  node_at m d = None -> nearest_ancestor m d = File ->
  (exists msg, makedirs_error m d = Some (Exn NotADirectoryError msg))
  /\ ensure_dir d m = m.
Proof.
  unfold makedirs_error, ensure_dir, nearest_ancestor. intros E H. rewrite E.
  destruct d as [|c d]; [discriminate|]. rewrite node_at_cons in E.
  destruct (makedirs_up_blocked _ m (c :: d) E H) as [msg ->]. eauto.
Qed.

Lemma makedirs_error_cases (m : gmap path node) (d : path) :
  makedirs_error m d = None
  \/ (node_at m d = None /\ nearest_ancestor m d = File
      /\ exists msg, makedirs_error m d = Some (Exn NotADirectoryError msg)).
Proof.
  destruct (node_at m d) as [k|] eqn:E.
  - left. apply makedirs_error_ok. eauto.
  - destruct (nearest_ancestor m d) eqn:Hn.
    + right. split; [reflexivity|]. split; [reflexivity|].
      apply makedirs_error_blocked; [exact E|exact Hn].
    + left. apply makedirs_error_ok. now right.
Qed.

Lemma ensure_dir_keeps (d : path) (m : gmap path node) (q : path) (n : node) :
  m !! q = Some n -> ensure_dir d m !! q = Some n.
Proof.
  intros H. unfold ensure_dir. destruct (node_at m d); [exact H|].
  destruct (makedirs_up m d (ancestors d)) as [m'|e] eqn:E; [|exact H].
  now apply (makedirs_up_keeps _ _ _ _ _ _ E).
Qed.

(** What [ensure_dir] adds is a directory at the path or above it. *)
Lemma ensure_dir_new (d : path) (m : gmap path node) (q : path) (n : node) :
  ensure_dir d m !! q = Some n ->
  m !! q = Some n \/ (n = Dir /\ (length q <= length d)%nat).
Proof.
  unfold ensure_dir. destruct (node_at m d); [now left|].
  destruct (makedirs_up m d (ancestors d)) as [m'|e] eqn:E; [|now left].
  intros H. destruct (makedirs_up_new _ _ _ _ _ _ E H) as [?|[-> Hin]]; [now left|].
  right. split; [reflexivity|].
  apply elem_of_cons in Hin as [->|Hin]; [lia|].
  apply ancestors_length in Hin. lia.
Qed.

Lemma ensure_dir_makes (d : path) (m : gmap path node) :
  makedirs_error m d = None -> node_at m d <> Some File ->
  node_at (ensure_dir d m) d = Some Dir.
Proof.
  unfold makedirs_error, ensure_dir. intros He H.
  destruct (node_at m d) as [[]|] eqn:E.
  - congruence.
  - exact E.
  - destruct d as [|c d]; [discriminate|]. rewrite node_at_cons.
    destruct (makedirs_up m (c :: d) (ancestors (c :: d))) as [m'|e] eqn:Em;
      [|discriminate].
    now apply (makedirs_up_made _ _ _ _ Em).
Qed.

Lemma ensure_dir_there (d : path) (x : string) (m : gmap path node) :
  makedirs_error m (d ++ [x]) = None ->
  is_Some (ensure_dir (d ++ [x]) m !! (d ++ [x])).
Proof.
  unfold makedirs_error, ensure_dir. rewrite node_at_snoc. intros He.
  destruct (m !! (d ++ [x])) eqn:E; [rewrite E; eauto|].
  destruct (makedirs_up m (d ++ [x]) (ancestors (d ++ [x]))) as [m'|e] eqn:Em;
    [|discriminate].
  rewrite (makedirs_up_made _ _ _ _ Em). eauto.
Qed.

(** In a directory that exists, a missing entry can always be made. *)
Lemma makedirs_error_in_dir (m : gmap path node) (d : path) (x : string) :
  node_at m d = Some Dir -> makedirs_error m (d ++ [x]) = None.
Proof.
  intros Hd. apply makedirs_error_ok. right. unfold nearest_ancestor.
  destruct d as [|c d]; [reflexivity|].
  rewrite ancestors_parent by discriminate. simpl.
  rewrite node_at_cons in Hd. now rewrite Hd.
Qed.

(** ** Module initialisation *)

(** C8. When the import of the registry fails with an [ImportError]
    (a missing module raises its subclass [ModuleNotFoundError]), the
    statement returns normally with the empty registry and the
    indicator false, touching nothing; when the import yields the
    registry, that registry is used and the indicator is true. *)
Theorem import_prebuilt_ops_spec (w : World) :
  (forall e, aot_config_import = Raises e -> isinstance e ImportError = true ->
     import_prebuilt_ops w = (Returns (∅, false), w))
  /\ (forall msg, isinstance (Exn ModuleNotFoundError msg) ImportError = true)
  /\ (forall uri, aot_config_import = Returns uri ->
        import_prebuilt_ops w = (Returns (uri, true), w)).
Proof.
  unfold import_prebuilt_ops, try_except, bind, import_aot_config.
  split; [|split].
  - intros e -> He. now rewrite He.
  - reflexivity.
  - now intros uri ->.
Qed.

Lemma ensure_workspace_dir_run (w : World) :
  ensure_workspace_dir w =
    match makedirs_error (fs w) FLASHINFER_WORKSPACE_DIR with
    | None => (Returns tt, set_fs (ensure_dir FLASHINFER_WORKSPACE_DIR) w)
    | Some e => (Raises e, w)
    end.
Proof.
  unfold ensure_workspace_dir, bind, os_path_exists, os_makedirs,
    makedirs_error, ensure_dir.
  destruct (node_at (fs w) FLASHINFER_WORKSPACE_DIR) as [n|] eqn:E.
  - rewrite bool_decide_eq_true_2 by eauto. simpl. unfold ret.
    rewrite set_fs_same; [reflexivity|]. now rewrite E.
  - rewrite bool_decide_eq_false_2 by (intros [? ?]; discriminate). simpl.
    rewrite E.
    destruct (makedirs_up (fs w) FLASHINFER_WORKSPACE_DIR
                (ancestors FLASHINFER_WORKSPACE_DIR)) as [m'|e] eqn:Em;
      [|reflexivity].
    f_equal. apply set_fs_ext. now rewrite E, Em.
Qed.

(** C7, as amended. The directory check at import time: a workspace
    root that is missing is made, with every entry already on disk
    kept, when its nearest existing ancestor is a directory; when that
    ancestor is a regular file, [os.makedirs] raises
    [NotADirectoryError] and the world is unchanged; a workspace root
    that exists is left alone, the world unchanged and nothing
    raised. *)
Theorem ensure_workspace_dir_spec (w : World) :
  (node_at (fs w) FLASHINFER_WORKSPACE_DIR = None ->
   nearest_ancestor (fs w) FLASHINFER_WORKSPACE_DIR = Dir ->
     exists w',
       ensure_workspace_dir w = (Returns tt, w')
       /\ node_at (fs w') FLASHINFER_WORKSPACE_DIR = Some Dir
       /\ (forall p n, fs w !! p = Some n -> fs w' !! p = Some n))
  /\ (node_at (fs w) FLASHINFER_WORKSPACE_DIR = None ->
      nearest_ancestor (fs w) FLASHINFER_WORKSPACE_DIR = File ->
        exists msg,
          ensure_workspace_dir w = (Raises (Exn NotADirectoryError msg), w))
  /\ (is_Some (node_at (fs w) FLASHINFER_WORKSPACE_DIR) ->
        ensure_workspace_dir w = (Returns tt, w)).
Proof.
  rewrite ensure_workspace_dir_run. split; [|split].
  - intros Hnone Hn.
    assert (He : makedirs_error (fs w) FLASHINFER_WORKSPACE_DIR = None)
      by (apply makedirs_error_ok; now right).
    rewrite He. eexists. split; [reflexivity|]. simpl. split.
    + apply ensure_dir_makes; [exact He|]. rewrite Hnone. discriminate.
    + intros p n Hp. now apply ensure_dir_keeps.
  - intros Hnone Hn.
    destruct (makedirs_error_blocked _ _ Hnone Hn) as [[msg ->] _]. eauto.
  - intros Hsome.
    rewrite makedirs_error_ok by now left.
    rewrite set_fs_same; [reflexivity|].
    unfold ensure_dir. now destruct Hsome as [k ->].
Qed.

(** ** The build entry point *)

Lemma check_arch_flag_indep (s : string) (w w' : World) :
  check_arch_flag s w' = (fst (check_arch_flag s w), w').
Proof.
  unfold check_arch_flag. destruct (Re.search s); [|reflexivity].
  now destruct (_ <? _).
Qed.

Lemma check_loop_indep (flags : list string) (w w' : World) :
  for_each flags check_arch_flag w' = (fst (for_each flags check_arch_flag w), w').
Proof.
  induction flags as [|s flags IH]; [reflexivity|].
  rewrite !for_each_cons. rewrite (check_arch_flag_indep s w w').
  pose proof (check_arch_flag_world s w) as Hw.
  destruct (check_arch_flag s w) as [[[]|e|] w1]; simpl in *; subst; auto.
Qed.

Lemma check_cuda_arch_add_log (msg : string) (w : World) :
  check_cuda_arch (add_log msg w) = (fst (check_cuda_arch w), add_log msg w).
Proof. rewrite !check_cuda_arch_unfold. apply check_loop_indep. Qed.

Lemma check_cuda_arch_never_blocks (w : World) :
  fst (check_cuda_arch w) <> Blocks.
Proof.
  rewrite check_cuda_arch_unfold.
  destruct (check_loop_cases (cuda_arch_flags w) w)
    as [[E _]|[(pre & s & post & n & Hfl & Hpre & Hn & Hlt)
              |(pre & s & post & Hfl & Hpre & Hm)]].
  - now rewrite E.
  - pose proof (check_loop_rejects pre post s n w Hpre Hn Hlt) as E.
    rewrite <- Hfl in E. now rewrite E.
  - pose proof (check_loop_no_match pre post s w Hpre Hm) as E.
    rewrite <- Hfl in E. now rewrite E.
Qed.

(** A failed capability check ends the call: only the log line has been
    written. *)
Lemma load_cuda_ops_gate
    (name : string) (sources : list pathlike) (ecf ecuf : list string)
    (eld : option (list string)) (eip : option (list pathlike)) (verbose : bool)
    (w : World) (e : exn) :
  fst (check_cuda_arch w) = Raises e ->
  load_cuda_ops name sources ecf ecuf eld eip verbose w =
    (Raises e, add_log ("flashinfer.jit: " +:+ "Loading JIT ops: " +:+ name) w).
Proof.
  intros H. unfold load_cuda_ops, bind at 1, logger_info.
  unfold bind at 1. rewrite check_cuda_arch_add_log, H. reflexivity.
Qed.

Lemma ensure_dir_then {B} (d : path) (k : M B) (w : World) :
  bind (os_path_exists d)
    (fun e => bind (if negb e then os_makedirs d else ret tt) (fun _ => k)) w
  = match makedirs_error (fs w) d with
    | None => k (set_fs (ensure_dir d) w)
    | Some e => (Raises e, w)
    end.
Proof.
  unfold bind, os_path_exists, os_makedirs, makedirs_error, ensure_dir.
  destruct (node_at (fs w) d) as [n|] eqn:E.
  - rewrite bool_decide_eq_true_2 by eauto. simpl.
    rewrite set_fs_same; [reflexivity|]. now rewrite E.
  - rewrite bool_decide_eq_false_2 by (intros [? ?]; discriminate). simpl.
    rewrite E.
    destruct (makedirs_up (fs w) d (ancestors d)) as [m'|e] eqn:Em;
      [|reflexivity].
    f_equal. apply set_fs_ext. now rewrite E, Em.
Qed.

Lemma with_lock_held {A} (p : path) (body : M A) (w : World) :
  p ∈ held_locks w -> with_lock p body w = (Blocks, w).
Proof.
  intros H. unfold with_lock, lock_acquire. now rewrite decide_True.
Qed.

Lemma with_lock_free {A} (p : path) (body : M A) (w : World) :
  p ∉ held_locks w ->
  with_lock p body w =
    match body (set_held (union {[ p ]}) (set_fs (touch_lock_file p) w)) with
    | (Blocks, w2) => (Blocks, w2)
    | (r, w2) => (r, set_held (fun s => s ∖ {[ p ]}) w2)
    end.
Proof.
  intros H. unfold with_lock, lock_acquire, lock_release.
  rewrite decide_False by assumption.
  now destruct (body _) as [[a|e|] w2].
Qed.

(** Past the capability check the call makes sure of the build
    directory, which may fail, and runs the loader under the lock. *)
Lemma load_cuda_ops_checked
    (name : string) (sources : list pathlike) (ecf ecuf : list string)
    (eld : option (list string)) (eip : option (list pathlike)) (verbose : bool)
    (w : World) :
  fst (check_cuda_arch w) = Returns tt ->
  load_cuda_ops name sources ecf ecuf eld eip verbose w =
    match makedirs_error (fs w) (FLASHINFER_JIT_DIR ++ [name]) with
    | Some e =>
        (Raises e, add_log ("flashinfer.jit: " +:+ "Loading JIT ops: " +:+ name) w)
    | None =>
        with_lock (FLASHINFER_JIT_DIR ++ [name +:+ ".lock"])
          (torch_cpp_ext_load
             {| la_name := name;
                la_sources := map py_str sources;
                la_extra_cflags := ["-O3"; "-Wno-switch-bool"] ++ ecf;
                la_extra_cuda_cflags :=
                  [ "-O3"; "-std=c++17"; "--threads"; "4"; "-use_fast_math";
                    "-DFLASHINFER_ENABLE_BF16"; "-DFLASHINFER_ENABLE_FP8" ] ++ ecuf;
                la_extra_ldflags := eld;
                la_extra_include_paths :=
                  map py_str (default default_include_paths eip);
                la_build_directory := FLASHINFER_JIT_DIR ++ [name];
                la_verbose := verbose;
                la_with_cuda := true |})
          (set_fs (ensure_dir (FLASHINFER_JIT_DIR ++ [name]))
             (add_log ("flashinfer.jit: " +:+ "Loading JIT ops: " +:+ name) w))
    end.
Proof.
  intros H. unfold load_cuda_ops, bind at 1, logger_info.
  unfold bind at 1. rewrite check_cuda_arch_add_log, H.
  rewrite ensure_dir_then.
  change (fs (add_log _ w)) with (fs w).
  destruct (makedirs_error (fs w) (FLASHINFER_JIT_DIR ++ [name]));
    [reflexivity|]. now destruct eip.
Qed.

(** A build directory that cannot be made ends the call before the lock
    is taken. *)
Lemma load_cuda_ops_no_dir
    (name : string) (sources : list pathlike) (ecf ecuf : list string)
    (eld : option (list string)) (eip : option (list pathlike)) (verbose : bool)
    (w : World) (e : exn) :
  fst (check_cuda_arch w) = Returns tt ->
  makedirs_error (fs w) (FLASHINFER_JIT_DIR ++ [name]) = Some e ->
  load_cuda_ops name sources ecf ecuf eld eip verbose w =
    (Raises e, add_log ("flashinfer.jit: " +:+ "Loading JIT ops: " +:+ name) w).
Proof.
  intros H He. rewrite load_cuda_ops_checked by assumption. now rewrite He.
Qed.

(** A call that finds the lock file locked waits; the loader is not
    reached. *)
Lemma load_cuda_ops_waits
    (name : string) (sources : list pathlike) (ecf ecuf : list string)
    (eld : option (list string)) (eip : option (list pathlike)) (verbose : bool)
    (w : World) :
  fst (check_cuda_arch w) = Returns tt ->
  makedirs_error (fs w) (FLASHINFER_JIT_DIR ++ [name]) = None ->
  FLASHINFER_JIT_DIR ++ [name +:+ ".lock"] ∈ held_locks w ->
  exists w',
    load_cuda_ops name sources ecf ecuf eld eip verbose w = (Blocks, w')
    /\ load_calls w' = load_calls w.
Proof.
  intros H Hd Hheld. rewrite load_cuda_ops_checked by assumption. rewrite Hd.
  rewrite with_lock_held by exact Hheld. eauto.
Qed.

(** A call that passes the check, can make its build directory and
    finds the lock free invokes the loader once, on the disk
    [disk_at_load], and ends as the loader ends. *)
Lemma load_cuda_ops_loads
    (name : string) (sources : list pathlike) (ecf ecuf : list string)
    (eld : option (list string)) (eip : option (list pathlike)) (verbose : bool)
    (w : World) :
  fst (check_cuda_arch w) = Returns tt ->
  makedirs_error (fs w) (FLASHINFER_JIT_DIR ++ [name]) = None ->
  FLASHINFER_JIT_DIR ++ [name +:+ ".lock"] ∉ held_locks w ->
  exists a w',
    load_cuda_ops name sources ecf ecuf eld eip verbose w
      = (fst (torch_load a (disk_at_load name (fs w))), w')
    /\ fs w' = snd (torch_load a (disk_at_load name (fs w)))
    /\ load_calls w' = load_calls w ++ [a]
    /\ a = {| la_name := name;
              la_sources := map py_str sources;
              la_extra_cflags := ["-O3"; "-Wno-switch-bool"] ++ ecf;
              la_extra_cuda_cflags :=
                [ "-O3"; "-std=c++17"; "--threads"; "4"; "-use_fast_math";
                  "-DFLASHINFER_ENABLE_BF16"; "-DFLASHINFER_ENABLE_FP8" ] ++ ecuf;
              la_extra_ldflags := eld;
              la_extra_include_paths :=
                map py_str (default default_include_paths eip);
              la_build_directory := FLASHINFER_JIT_DIR ++ [name];
              la_verbose := verbose;
              la_with_cuda := true |}.
Proof.
  intros H Hd Hfree. rewrite load_cuda_ops_checked by assumption. rewrite Hd.
  rewrite with_lock_free by exact Hfree.
  unfold torch_cpp_ext_load.
  change (fs (set_held _ (set_fs (touch_lock_file ?p) (set_fs (ensure_dir ?d) ?v))))
    with (touch_lock_file p (ensure_dir d (fs w))).
  fold (disk_at_load name (fs w)).
  match goal with |- context [torch_load ?a _] => exists a end.
  destruct (torch_load _ (disk_at_load name (fs w))) as [[x|e|] m];
    eexists; (split; [reflexivity|]); simpl; auto.
Qed.

(** The four ways a call can go, by the loader trace it leaves: it
    invokes the loader, once, exactly when the check passes, the build
    directory can be made and the lock is free. *)
Lemma load_cuda_ops_trace
    (name : string) (sources : list pathlike) (ecf ecuf : list string)
    (eld : option (list string)) (eip : option (list pathlike)) (verbose : bool)
    (w : World) :
  (fst (check_cuda_arch w) = Returns tt
   /\ makedirs_error (fs w) (FLASHINFER_JIT_DIR ++ [name]) = None
   /\ FLASHINFER_JIT_DIR ++ [name +:+ ".lock"] ∉ held_locks w)
  \/ load_calls (snd (load_cuda_ops name sources ecf ecuf eld eip verbose w))
     = load_calls w.
Proof.
  destruct (fst (check_cuda_arch w)) as [[]|e|] eqn:Hc.
  - destruct (makedirs_error (fs w) (FLASHINFER_JIT_DIR ++ [name])) as [e|] eqn:Hd.
    + right. now rewrite (load_cuda_ops_no_dir _ _ _ _ _ _ _ w e Hc Hd).
    + destruct (decide (FLASHINFER_JIT_DIR ++ [name +:+ ".lock"] ∈ held_locks w))
        as [Hheld|Hfree]; [|now left].
      right.
      destruct (load_cuda_ops_waits name sources ecf ecuf eld eip verbose w Hc Hd Hheld)
        as (w' & E & Hsame). now rewrite E.
  - right. now rewrite (load_cuda_ops_gate _ _ _ _ _ _ _ w e Hc).
  - exfalso. now apply (check_cuda_arch_never_blocks w).
Qed.

Lemma trace_not_extended (l : list LoadArgs) (a : LoadArgs) : l <> l ++ [a].
Proof.
  intros H. apply (f_equal length) in H. rewrite length_app in H.
  simpl in H. lia.
Qed.

(** ** Clearing the cache directory *)

Lemma child_of_spec (d p : path) (n : string) :
  child_of d p = Some n <-> p = d ++ [n].
Proof.
  revert p. induction d as [|x d IH]; intros p; simpl.
  - destruct p as [|y [|z p]]; split; intros H; try discriminate; congruence.
  - destruct p as [|y p]; [split; discriminate|].
    destruct (decide (x = y)) as [->|Hne].
    + rewrite IH. split; congruence.
    + split; [discriminate|]. congruence.
Qed.

Lemma elem_of_entries (m : gmap path node) (d : path) (n : string) :
  n ∈ entries m d <-> is_Some (m !! (d ++ [n])).
Proof.
  unfold entries. rewrite list_elem_of_omap. split.
  - intros ([p k] & Hin & Hc). simpl in Hc.
    apply child_of_spec in Hc as ->.
    apply elem_of_map_to_list in Hin. eauto.
  - intros [k Hk]. exists (d ++ [n], k). split.
    + now apply elem_of_map_to_list.
    + simpl. now apply child_of_spec.
Qed.

Lemma NoDup_omap_fst (d : path) (l : list (path * node)) :
  NoDup (l.*1) -> NoDup (omap (fun kv => child_of d kv.1) l).
Proof.
  induction l as [|[p k] l IH]; simpl; intros Hnd; [constructor|].
  apply NoDup_cons in Hnd as [Hp Hnd].
  destruct (child_of d p) as [n|] eqn:E; [|auto].
  apply NoDup_cons. split; [|auto].
  rewrite list_elem_of_omap. intros ([q k'] & Hin & Hc). simpl in Hc.
  apply child_of_spec in E, Hc. subst p q.
  apply Hp. apply list_elem_of_fmap. exists (d ++ [n], k'). now split.
Qed.

Lemma NoDup_entries (m : gmap path node) (d : path) : NoDup (entries m d).
Proof. apply NoDup_omap_fst, NoDup_fst_map_to_list. Qed.

Lemma snoc_inj (d : path) (a b : string) : d ++ [a] = d ++ [b] -> a = b.
Proof. intros H. apply app_inv_head in H. congruence. Qed.

Lemma snoc_neq_self (d : path) (a : string) : d <> d ++ [a].
Proof.
  intros H. apply (f_equal length) in H. rewrite length_app in H.
  simpl in H. lia.
Qed.

(** The removal loop over names that are all regular files. *)
Lemma remove_loop_files (d : path) (l : list string) (w : World) :
  NoDup l ->
  (forall f, f ∈ l -> fs w !! (d ++ [f]) = Some File) ->
  exists w',
    for_each l (fun file => os_remove (d ++ [file])) w = (Returns tt, w')
    /\ (forall f, f ∈ l -> fs w' !! (d ++ [f]) = None)
    /\ (forall p, (forall f, f ∈ l -> p <> d ++ [f]) -> fs w' !! p = fs w !! p).
Proof.
  revert w. induction l as [|x l IH]; intros w Hnd Hfiles.
  - exists w. split; [reflexivity|]. split; [|reflexivity].
    intros f Hf. inversion Hf.
  - apply NoDup_cons in Hnd as [Hx Hnd].
    rewrite for_each_cons. unfold os_remove at 1.
    rewrite node_at_snoc, (Hfiles x) by now left.
    destruct (IH (set_fs (delete (d ++ [x])) w) Hnd) as (w' & E & Hgone & Hrest).
    { intros f Hf. simpl. rewrite lookup_delete_ne.
      - apply Hfiles. now right.
      - intros Heq. apply snoc_inj in Heq. congruence. }
    exists w'. split; [exact E|]. split.
    + intros f Hf. apply elem_of_cons in Hf as [->|Hf]; [|auto].
      rewrite Hrest.
      * simpl. apply lookup_delete_eq.
      * intros f Hf Heq. apply snoc_inj in Heq. congruence.
    + intros p Hp. rewrite Hrest.
      * simpl. apply lookup_delete_ne. intros Heq. apply (Hp x); [now left|auto].
      * intros f Hf. apply Hp. now right.
Qed.

(** The removal loop over names one of which is a directory: it stops
    with [IsADirectoryError], and no directory has gone. *)
Lemma remove_loop_dir (d : path) (l : list string) (w : World) :
  NoDup l ->
  (forall f, f ∈ l -> is_Some (fs w !! (d ++ [f]))) ->
  (exists f, f ∈ l /\ fs w !! (d ++ [f]) = Some Dir) ->
  exists f w',
    f ∈ l /\ fs w !! (d ++ [f]) = Some Dir
    /\ for_each l (fun file => os_remove (d ++ [file])) w =
         (Raises (Exn IsADirectoryError (path_str (d ++ [f]))), w')
    /\ (forall p, fs w !! p = Some Dir -> fs w' !! p = Some Dir).
Proof.
  revert w. induction l as [|x l IH]; intros w Hnd Hall (g & Hg & Hdir).
  - inversion Hg.
  - apply NoDup_cons in Hnd as [Hx Hnd].
    rewrite for_each_cons. unfold os_remove at 1. rewrite node_at_snoc.
    destruct (Hall x) as [k Hk]; [now left|]. rewrite Hk.
    destruct k.
    + assert (Hgl : g ∈ l).
      { apply elem_of_cons in Hg as [->|Hg]; [congruence|exact Hg]. }
      assert (Hkeep : forall p k, p <> d ++ [x] ->
                fs w !! p = Some k ->
                fs (set_fs (delete (d ++ [x])) w) !! p = Some k).
      { intros p k Hne Hp. simpl. now rewrite lookup_delete_ne. }
      destruct (IH (set_fs (delete (d ++ [x])) w) Hnd) as (f & w' & Hf & Hfd & E & Hdirs).
      * intros f Hf. destruct (Hall f) as [k Hfk]; [now right|].
        exists k. apply Hkeep; [|exact Hfk].
        intros Heq. apply snoc_inj in Heq. congruence.
      * exists g. split; [exact Hgl|]. apply Hkeep; [|exact Hdir]. congruence.
      * exists f, w'. split; [now right|]. split.
        -- simpl in Hfd. rewrite lookup_delete_ne in Hfd; [exact Hfd|].
           intros Heq. apply snoc_inj in Heq. congruence.
        -- split; [exact E|]. intros p Hp. apply Hdirs, Hkeep; [congruence|exact Hp].
    + exists x, w. split; [now left|]. split; [exact Hk|]. split; [reflexivity|auto].
Qed.

Lemma clear_cache_dir_unfold (w : World) :
  node_at (fs w) FLASHINFER_JIT_DIR = Some Dir ->
  clear_cache_dir w =
    for_each (entries (fs w) FLASHINFER_JIT_DIR)
      (fun file => os_remove (FLASHINFER_JIT_DIR ++ [file])) w.
Proof.
  intros H. unfold clear_cache_dir, bind, os_path_exists.
  rewrite bool_decide_eq_true_2 by (rewrite H; eauto).
  unfold os_listdir. now rewrite H.
Qed.

(** X1. A cache directory that holds regular files only is emptied and
    stays. *)
Lemma clear_cache_dir_files_only (w : World) :
  node_at (fs w) FLASHINFER_JIT_DIR = Some Dir ->
  (forall n k, fs w !! (FLASHINFER_JIT_DIR ++ [n]) = Some k -> k = File) ->
  exists w',
    clear_cache_dir w = (Returns tt, w')
    /\ entries (fs w') FLASHINFER_JIT_DIR = []
    /\ node_at (fs w') FLASHINFER_JIT_DIR = Some Dir.
Proof.
  intros Hdir Hfiles. rewrite clear_cache_dir_unfold by assumption.
  destruct (remove_loop_files FLASHINFER_JIT_DIR
              (entries (fs w) FLASHINFER_JIT_DIR) w) as (w' & E & Hgone & Hrest).
  { apply NoDup_entries. }
  { intros f Hf. apply elem_of_entries in Hf as [k Hk].
    now rewrite Hk, (Hfiles f k Hk). }
  exists w'. split; [exact E|]. split.
  - apply elem_of_nil_inv. intros n Hn.
    apply elem_of_entries in Hn as [k Hk].
    destruct (decide (n ∈ entries (fs w) FLASHINFER_JIT_DIR)) as [Hin|Hout].
    + rewrite Hgone in Hk by assumption. discriminate.
    + rewrite Hrest in Hk.
      * apply Hout, elem_of_entries. eauto.
      * intros f Hf Heq. apply snoc_inj in Heq. congruence.
  - destruct FLASHINFER_JIT_DIR as [|c p] eqn:Ej; [reflexivity|].
    rewrite node_at_cons in *. rewrite Hrest; [exact Hdir|].
    intros f _. rewrite <- Ej. apply snoc_neq_self.
Qed.

(** A cache directory with a subdirectory in it, such as the build
    directory of a module, is not cleared: [os.remove] refuses a
    directory, the call ends with [IsADirectoryError] and the
    subdirectories are all still there. *)
Lemma clear_cache_dir_subdirectory (w : World) (n : string) :
  node_at (fs w) FLASHINFER_JIT_DIR = Some Dir ->
  fs w !! (FLASHINFER_JIT_DIR ++ [n]) = Some Dir ->
  exists f w',
    clear_cache_dir w =
      (Raises (Exn IsADirectoryError (path_str (FLASHINFER_JIT_DIR ++ [f]))), w')
    /\ n ∈ entries (fs w') FLASHINFER_JIT_DIR.
Proof.
  intros Hdir Hn. rewrite clear_cache_dir_unfold by assumption.
  destruct (remove_loop_dir FLASHINFER_JIT_DIR
              (entries (fs w) FLASHINFER_JIT_DIR) w)
    as (f & w' & Hf & Hfd & E & Hdirs).
  { apply NoDup_entries. }
  { intros f Hf. now apply elem_of_entries. }
  { exists n. split; [|exact Hn]. apply elem_of_entries. eauto. }
  exists f, w'. split; [exact E|]. apply elem_of_entries. eauto.
Qed.

(** ** The claims about the build entry point *)

Lemma check_cuda_arch_below_75 (w : World) :
  Forall has_marker (cuda_arch_flags w) ->
  (exists s n, s ∈ cuda_arch_flags w /\ extracted_arch s = Some n /\ n < 75) ->
  check_cuda_arch w = (Raises (Exn RuntimeError "FlashInfer requires sm75+"), w).
Proof.
  intros Hall (s & n & Hs & Hn & Hlt). rewrite check_cuda_arch_unfold.
  destruct (check_loop_cases (cuda_arch_flags w) w)
    as [[_ Hge]|[(pre & t & post & k & Hfl & Hpre & Hk & Hklt)
                |(pre & t & post & Hfl & Hpre & Hm)]].
  - destruct (Hge s Hs) as (k & Hk & Hkge). rewrite Hn in Hk.
    injection Hk as <-. lia.
  - pose proof (check_loop_rejects pre post t k w Hpre Hk Hklt) as E.
    now rewrite <- Hfl in E.
  - exfalso. apply Hm. rewrite Forall_forall in Hall. apply Hall.
    rewrite Hfl. apply elem_of_app. right. now left.
Qed.

(** C2. A call made on hardware whose architecture number is below 75
    raises the sm75 error before anything is built: the loader has not
    been invoked and the disk is as it was, so no build directory has
    been made. Whatever the check raises ends the call in that way.
    Otherwise, a call that invokes the loader ends exactly as the loader
    ends: an exception of the loader is the exception of the call,
    unchanged. The loader is invoked when the check passes, the build
    directory exists or can be made, and the lock is free. *)
Theorem load_cuda_ops_errors
    (name : string) (sources : list pathlike) (ecf ecuf : list string)
    (eld : option (list string)) (eip : option (list pathlike)) (verbose : bool)
    (w : World) :
  let R := load_cuda_ops name sources ecf ecuf eld eip verbose w in
  (Forall has_marker (cuda_arch_flags w) ->
   (exists s n, s ∈ cuda_arch_flags w /\ extracted_arch s = Some n /\ n < 75) ->
   fst R = Raises (Exn RuntimeError "FlashInfer requires sm75+")
   /\ load_calls (snd R) = load_calls w
   /\ fs (snd R) = fs w)
  /\ (forall e, fst (check_cuda_arch w) = Raises e ->
        fst R = Raises e /\ load_calls (snd R) = load_calls w /\ fs (snd R) = fs w)
  /\ (forall a, load_calls (snd R) = load_calls w ++ [a] ->
        la_name a = name
        /\ la_build_directory a = FLASHINFER_JIT_DIR ++ [name]
        /\ fst R = fst (torch_load a (disk_at_load name (fs w)))
        /\ forall e, fst (torch_load a (disk_at_load name (fs w))) = Raises e ->
             fst R = Raises e)
  /\ (fst (check_cuda_arch w) = Returns tt ->
      is_Some (node_at (fs w) (FLASHINFER_JIT_DIR ++ [name]))
      \/ nearest_ancestor (fs w) (FLASHINFER_JIT_DIR ++ [name]) = Dir ->
      FLASHINFER_JIT_DIR ++ [name +:+ ".lock"] ∉ held_locks w ->
      exists a, load_calls (snd R) = load_calls w ++ [a]).
Proof.
  intros R. split; [|split; [|split]].
  - intros Hall Hlow. pose proof (check_cuda_arch_below_75 w Hall Hlow) as E.
    unfold R. rewrite (load_cuda_ops_gate _ _ _ _ _ _ _ w _ (f_equal fst E)).
    auto.
  - intros e He. unfold R. rewrite (load_cuda_ops_gate _ _ _ _ _ _ _ w e He).
    auto.
  - intros a Ha. unfold R in *.
    destruct (load_cuda_ops_trace name sources ecf ecuf eld eip verbose w)
      as [(Hok & Hd & Hfree)|Hsame].
    + destruct (load_cuda_ops_loads name sources ecf ecuf eld eip verbose w
                  Hok Hd Hfree) as (a0 & w' & E & _ & Hcalls & Ha0).
      rewrite E in *. simpl in *. rewrite Hcalls in Ha.
      apply app_inv_head in Ha. injection Ha as <-.
      split; [now rewrite Ha0|]. split; [now rewrite Ha0|].
      split; [reflexivity|]. auto.
    + rewrite Hsame in Ha. now apply trace_not_extended in Ha.
  - intros Hok Hdir Hfree.
    destruct (load_cuda_ops_loads name sources ecf ecuf eld eip verbose w Hok
                (makedirs_error_ok _ _ Hdir) Hfree)
      as (a & w' & E & _ & Hcalls & _).
    exists a. unfold R. now rewrite E.
Qed.

(** C10. Every invocation of the loader that a call of [load_cuda_ops]
    makes receives, as host compiler flags, the two defaults followed by
    the caller's [extra_cflags]; as device compiler flags, the seven
    base flags followed by the caller's [extra_cuda_cflags]; and as
    include paths the caller's, or, when none are given, the native
    include directory, the csrc directory and then the include
    directories of the template library. A call makes at most one
    invocation, and exactly one when the check passes, the build
    directory exists or can be made, and the lock is free. *)
Theorem load_cuda_ops_flags
    (name : string) (sources : list pathlike) (ecf ecuf : list string)
    (eld : option (list string)) (eip : option (list pathlike)) (verbose : bool)
    (w : World) :
  exists new,
    load_calls (snd (load_cuda_ops name sources ecf ecuf eld eip verbose w))
      = load_calls w ++ new
    /\ (length new <= 1)%nat
    /\ (fst (check_cuda_arch w) = Returns tt ->
        is_Some (node_at (fs w) (FLASHINFER_JIT_DIR ++ [name]))
        \/ nearest_ancestor (fs w) (FLASHINFER_JIT_DIR ++ [name]) = Dir ->
        FLASHINFER_JIT_DIR ++ [name +:+ ".lock"] ∉ held_locks w ->
        length new = 1%nat)
    /\ forall a, a ∈ new ->
         la_extra_cflags a = ["-O3"; "-Wno-switch-bool"] ++ ecf
         /\ la_extra_cuda_cflags a =
              [ "-O3"; "-std=c++17"; "--threads"; "4"; "-use_fast_math";
                "-DFLASHINFER_ENABLE_BF16"; "-DFLASHINFER_ENABLE_FP8" ] ++ ecuf
         /\ (eip = None ->
             la_extra_include_paths a =
               [path_str FLASHINFER_INCLUDE_DIR; path_str FLASHINFER_CSRC_DIR]
               ++ map path_str CUTLASS_INCLUDE_DIRS)
         /\ (forall l, eip = Some l -> la_extra_include_paths a = map py_str l).
Proof.
  destruct (load_cuda_ops_trace name sources ecf ecuf eld eip verbose w)
    as [(Hok & Hd & Hfree)|Hsame].
  - destruct (load_cuda_ops_loads name sources ecf ecuf eld eip verbose w
                Hok Hd Hfree) as (a0 & w' & E & _ & Hcalls & Ha0).
    exists [a0]. rewrite E. simpl. split; [exact Hcalls|].
    split; [lia|]. split; [reflexivity|].
    intros a Ha. apply list_elem_of_singleton in Ha as ->. rewrite Ha0. simpl.
    split; [reflexivity|]. split; [reflexivity|]. split.
    + intros ->. simpl. now rewrite map_map.
    + now intros l ->.
  - exists []. rewrite app_nil_r. split; [exact Hsame|]. split; [simpl; lia|].
    split.
    + intros Hok Hdir Hfree. exfalso.
      destruct (load_cuda_ops_loads name sources ecf ecuf eld eip verbose w Hok
                  (makedirs_error_ok _ _ Hdir) Hfree)
        as (a & w' & E & _ & Hcalls & _).
      rewrite E in Hsame. simpl in Hsame. rewrite Hcalls in Hsame.
      symmetry in Hsame. now apply trace_not_extended in Hsame.
    + intros a Ha. inversion Ha.
Qed.

(** ** Module initialisation as a whole *)

Lemma keeps_ret {A} (a : A) : keeps_entries (ret a).
Proof. now intros w p n H. Qed.

Lemma keeps_bind {A B} (m : M A) (k : A -> M B) :
  keeps_entries m -> (forall a, keeps_entries (k a)) -> keeps_entries (bind m k).
Proof.
  intros Hm Hk w p n H. unfold bind. specialize (Hm w p n H).
  destruct (m w) as [[a|e|] w']; simpl in *; auto.
  now apply Hk.
Qed.

Lemma keeps_try_except {A} (body handler : M A) (c : exc_class) :
  keeps_entries body -> keeps_entries handler ->
  keeps_entries (try_except body c handler).
Proof.
  intros Hb Hh w p n H. unfold try_except. specialize (Hb w p n H).
  destruct (body w) as [[a|e|] w']; simpl in *; auto.
  destruct (isinstance e c); simpl; auto.
Qed.

Lemma keeps_os_path_exists (p : path) : keeps_entries (os_path_exists p).
Proof. now intros w q n H. Qed.

Lemma keeps_os_makedirs (p : path) : keeps_entries (os_makedirs p).
Proof.
  intros w q n H. unfold os_makedirs.
  destruct (node_at (fs w) p); simpl; [exact H|].
  destruct (makedirs_up (fs w) p (ancestors p)) as [m'|e] eqn:E; simpl;
    [|exact H].
  now apply (makedirs_up_keeps _ _ _ _ _ _ E).
Qed.

Lemma keeps_open_create (p : path) : keeps_entries (open_create p).
Proof.
  intros w q n H. unfold open_create.
  destruct (node_at (fs w) p) as [[]|] eqn:E; simpl; try exact H.
  destruct (node_at (fs w) (removelast p)) as [[]|]; simpl; try exact H.
  rewrite lookup_insert_ne; [exact H|].
  intros <-. destruct p; [discriminate|]. rewrite node_at_cons in E. congruence.
Qed.

Lemma keeps_remove_unwanted : keeps_entries remove_unwanted_pytorch_nvcc_flags.
Proof. intros w p n H. now rewrite remove_unwanted_spec. Qed.

Lemma keeps_import_prebuilt_ops : keeps_entries import_prebuilt_ops.
Proof.
  apply keeps_try_except; [|apply keeps_ret].
  apply keeps_bind; [|intros; apply keeps_ret]. now intros w p n H.
Qed.

Lemma keeps_ensure_workspace_dir : keeps_entries ensure_workspace_dir.
Proof.
  apply keeps_bind; [apply keeps_os_path_exists|].
  intros []; simpl; [apply keeps_ret|apply keeps_os_makedirs].
Qed.

Lemma keeps_logger_init : keeps_entries logger_init.
Proof.
  apply keeps_bind; [apply keeps_os_path_exists|]. intros e.
  apply keeps_bind; [|intros; apply keeps_open_create].
  destruct e; simpl; [apply keeps_ret|apply keeps_open_create].
Qed.

(** X4. Importing the module, however it ends, removes nothing from the
    disk: what was there before is there afterwards. *)
Lemma module_init_keeps_entries : keeps_entries module_init.
Proof.
  apply keeps_bind; [apply keeps_import_prebuilt_ops|]. intros g.
  apply keeps_bind; [apply keeps_ensure_workspace_dir|]. intros _.
  apply keeps_bind; [apply keeps_logger_init|]. intros _.
  apply keeps_bind; [apply keeps_remove_unwanted|]. intros _.
  apply keeps_ret.
Qed.

(** ** More on clearing the cache directory *)

(** Whatever the removal loop meets, it only unlinks: no entry appears
    or changes kind, no directory goes, and nothing outside the names of
    the directory is touched. *)
Lemma remove_loop_frame (d : path) (l : list string) (w : World) :
  (forall p k,
     fs (snd (for_each l (fun file => os_remove (d ++ [file])) w)) !! p = Some k ->
     fs w !! p = Some k)
  /\ (forall p, fs w !! p = Some Dir ->
        fs (snd (for_each l (fun file => os_remove (d ++ [file])) w)) !! p = Some Dir)
  /\ (forall p, (forall f, p <> d ++ [f]) ->
        fs (snd (for_each l (fun file => os_remove (d ++ [file])) w)) !! p = fs w !! p).
Proof.
  revert w. induction l as [|x l IH]; intros w; [now repeat split|].
  rewrite for_each_cons. unfold os_remove at 1 3 5. rewrite node_at_snoc.
  destruct (fs w !! (d ++ [x])) as [[]|] eqn:E; simpl; [|now repeat split..].
  destruct (IH (set_fs (delete (d ++ [x])) w)) as (Hsub & Hdir & Hout).
  split; [|split].
  - intros p k Hp. apply Hsub in Hp. simpl in Hp.
    apply lookup_delete_Some in Hp. tauto.
  - intros p Hp. apply Hdir. simpl. rewrite lookup_delete_ne; [exact Hp|].
    congruence.
  - intros p Hp. rewrite Hout by exact Hp. simpl.
    apply lookup_delete_ne. intros Heq. now apply (Hp x).
Qed.

(** X3. However [clear_cache_dir] ends, it has only unlinked direct entries
    of the JIT directory: every entry left on disk was there before with
    the same kind, every directory is still there, and every path that
    is not a direct entry of the JIT directory is as it was. When the
    JIT directory does not exist the world is unchanged. *)
Theorem clear_cache_dir_frame (w : World) :
  (forall p k, fs (snd (clear_cache_dir w)) !! p = Some k -> fs w !! p = Some k)
  /\ (forall p, fs w !! p = Some Dir -> fs (snd (clear_cache_dir w)) !! p = Some Dir)
  /\ (forall p, (forall f, p <> FLASHINFER_JIT_DIR ++ [f]) ->
        fs (snd (clear_cache_dir w)) !! p = fs w !! p)
  /\ (node_at (fs w) FLASHINFER_JIT_DIR = None ->
        clear_cache_dir w = (Returns tt, w)).
Proof.
  destruct (node_at (fs w) FLASHINFER_JIT_DIR) as [[]|] eqn:E.
  - assert (Hc : clear_cache_dir w =
                   (Raises (Exn NotADirectoryError (path_str FLASHINFER_JIT_DIR)), w)).
    { unfold clear_cache_dir, bind, os_path_exists.
      rewrite bool_decide_eq_true_2 by (rewrite E; eauto).
      unfold os_listdir. now rewrite E. }
    rewrite Hc. simpl. repeat split; auto. discriminate.
  - rewrite clear_cache_dir_unfold by exact E.
    destruct (remove_loop_frame FLASHINFER_JIT_DIR
                (entries (fs w) FLASHINFER_JIT_DIR) w) as (H1 & H2 & H3).
    repeat split; auto. discriminate.
  - assert (Hc : clear_cache_dir w = (Returns tt, w)).
    { unfold clear_cache_dir, bind, os_path_exists.
      rewrite bool_decide_eq_false_2; [reflexivity|].
      rewrite E. intros [? ?]. discriminate. }
    rewrite Hc. simpl. repeat split; auto.
Qed.

(** ** More on module initialisation *)

Lemma log_path_parent : removelast log_path = FLASHINFER_WORKSPACE_DIR.
Proof. apply removelast_last. Qed.

Lemma node_at_log_path (m : gmap path node) : node_at m log_path = m !! log_path.
Proof. apply node_at_snoc. Qed.

Lemma open_create_file (p : path) (w : World) :
  node_at (fs w) p = Some File -> open_create p w = (Returns tt, w).
Proof. intros H. unfold open_create. now rewrite H. Qed.

Lemma open_create_dir (p : path) (w : World) :
  node_at (fs w) p = Some Dir ->
  open_create p w = (Raises (Exn IsADirectoryError (path_str p)), w).
Proof. intros H. unfold open_create. now rewrite H. Qed.

Lemma open_create_new (p : path) (w : World) :
  node_at (fs w) p = None -> node_at (fs w) (removelast p) = Some Dir ->
  open_create p w = (Returns tt, set_fs (insert p File) w).
Proof. intros H H'. unfold open_create. now rewrite H, H'. Qed.

Lemma open_create_under_file (p : path) (w : World) :
  node_at (fs w) p = None -> node_at (fs w) (removelast p) = Some File ->
  open_create p w = (Raises (Exn NotADirectoryError (path_str p)), w).
Proof. intros H H'. unfold open_create. now rewrite H, H'. Qed.

Lemma logger_init_unfold (w : World) :
  logger_init w =
    bind (if negb (bool_decide (is_Some (node_at (fs w) log_path)))
          then open_create log_path else ret tt)
      (fun _ => open_create log_path) w.
Proof. reflexivity. Qed.

(** The logger's constructor on a workspace that is a directory: the
    log file is there afterwards and nothing else on disk has changed.
    A directory in the place of the log file makes it fail. *)
Lemma logger_init_run (w : World) :
  node_at (fs w) FLASHINFER_WORKSPACE_DIR = Some Dir ->
  (fs w !! log_path <> Some Dir ->
     logger_init w = (Returns tt, set_fs (touch_lock_file log_path) w))
  /\ (fs w !! log_path = Some Dir ->
        logger_init w = (Raises (Exn IsADirectoryError (path_str log_path)), w)).
Proof.
  intros Hws. rewrite logger_init_unfold. unfold bind.
  pose proof (node_at_log_path (fs w)) as Hn.
  destruct (fs w !! log_path) as [[]|] eqn:E; split; intros H; try congruence.
  - rewrite bool_decide_eq_true_2 by (rewrite Hn; eauto). simpl.
    rewrite open_create_file by exact Hn.
    rewrite set_fs_same; [reflexivity|]. unfold touch_lock_file. now rewrite Hn.
  - rewrite bool_decide_eq_true_2 by (rewrite Hn; eauto). simpl.
    now rewrite open_create_dir by exact Hn.
  - rewrite bool_decide_eq_false_2 by (rewrite Hn; intros [? ?]; discriminate).
    simpl. rewrite open_create_new;
      [|exact Hn|rewrite log_path_parent; exact Hws].
    rewrite open_create_file.
    + f_equal. apply set_fs_ext. unfold touch_lock_file. now rewrite Hn.
    + rewrite node_at_log_path. simpl. apply lookup_insert_eq.
Qed.

Lemma import_prebuilt_ops_world (w : World) :
  snd (import_prebuilt_ops w) = w.
Proof.
  unfold import_prebuilt_ops, try_except, bind, import_aot_config.
  destruct aot_config_import as [u|e|]; simpl; try reflexivity.
  now destruct (isinstance e ImportError).
Qed.

(** X5. Importing the module on a disk where the workspace root is a
    directory, or is absent with a directory as its nearest existing
    ancestor, and the log file is not a directory, with a registry
    import that returned or was caught: the import succeeds, the
    workspace root is a directory, the log file exists as a regular
    file, the shared flag list is the sanitised one, and the log, the
    locks and the loader trace are untouched. *)
Theorem module_init_succeeds (w : World) (g : gset string * bool) :
  fst (import_prebuilt_ops w) = Returns g ->
  node_at (fs w) FLASHINFER_WORKSPACE_DIR = Some Dir
  \/ (node_at (fs w) FLASHINFER_WORKSPACE_DIR = None
      /\ nearest_ancestor (fs w) FLASHINFER_WORKSPACE_DIR = Dir) ->
  fs w !! log_path <> Some Dir ->
  exists w',
    module_init w = (Returns g, w')
    /\ node_at (fs w') FLASHINFER_WORKSPACE_DIR = Some Dir
    /\ fs w' !! log_path = Some File
    /\ COMMON_NVCC_FLAGS w'
       = COMMON_NVCC_FLAGS (snd (remove_unwanted_pytorch_nvcc_flags w))
    /\ log w' = log w /\ held_locks w' = held_locks w
    /\ load_calls w' = load_calls w.
Proof.
  intros Himp Hws Hlog.
  pose proof (import_prebuilt_ops_world w) as Hw.
  unfold module_init, bind at 1.
  destruct (import_prebuilt_ops w) as [o w0]. simpl in Himp, Hw. subst o w0.
  assert (He : makedirs_error (fs w) FLASHINFER_WORKSPACE_DIR = None).
  { apply makedirs_error_ok. destruct Hws as [->|[_ Hn]]; [left; eauto|now right]. }
  assert (Hnf : node_at (fs w) FLASHINFER_WORKSPACE_DIR <> Some File).
  { destruct Hws as [->|[-> _]]; discriminate. }
  unfold bind at 1. rewrite ensure_workspace_dir_run, He.
  set (w1 := set_fs (ensure_dir FLASHINFER_WORKSPACE_DIR) w).
  assert (Hws1 : node_at (fs w1) FLASHINFER_WORKSPACE_DIR = Some Dir).
  { now apply ensure_dir_makes. }
  assert (Hlog1 : fs w1 !! log_path <> Some Dir).
  { intros H. simpl in H. apply ensure_dir_new in H as [H|[_ H]]; [auto|].
    unfold log_path in H. rewrite length_app in H. simpl in H. lia. }
  unfold bind at 1.
  rewrite (proj1 (logger_init_run w1 Hws1) Hlog1).
  set (w2 := set_fs (touch_lock_file log_path) w1).
  unfold bind. rewrite remove_unwanted_spec.
  eexists. split; [reflexivity|].
  assert (Hf2 : fs w2 !! log_path = Some File).
  { simpl. unfold touch_lock_file. rewrite node_at_log_path.
    destruct (ensure_dir FLASHINFER_WORKSPACE_DIR (fs w) !! log_path) as [[]|] eqn:E.
    - exact E.
    - exfalso. apply Hlog1. exact E.
    - apply lookup_insert_eq. }
  split; [|split; [exact Hf2|]].
  - simpl. unfold touch_lock_file. rewrite node_at_log_path.
    destruct (ensure_dir FLASHINFER_WORKSPACE_DIR (fs w) !! log_path);
      [exact Hws1|].
    destruct FLASHINFER_WORKSPACE_DIR as [|c p] eqn:Ew; [reflexivity|].
    rewrite node_at_cons. rewrite lookup_insert_ne;
      [rewrite <- node_at_cons; exact Hws1|].
    unfold log_path. rewrite Ew. intros Heq. symmetry in Heq.
    now apply snoc_neq_self in Heq.
  - rewrite remove_unwanted_spec. simpl. repeat split; reflexivity.
Qed.

(** X6. A failure of the registry import that is not an [ImportError] is
    not caught: the import of the module fails with it before the
    workspace is looked at and before the flag list is touched. *)
Theorem module_init_import_failure (w : World) (e : exn) :
  aot_config_import = Raises e ->
  isinstance e ImportError = false ->
  module_init w = (Raises e, w).
Proof.
  intros Ha He.
  unfold module_init, bind, import_prebuilt_ops, try_except, import_aot_config.
  rewrite Ha. simpl. now rewrite He.
Qed.

(** X7. A regular file in the place of the workspace root passes the
    existence test, so no directory is made, and the import of the
    module fails when the logger opens its log file; the shared flag
    list has not been sanitised. *)
Theorem module_init_workspace_is_file (w : World) (g : gset string * bool) :
  fst (import_prebuilt_ops w) = Returns g ->
  node_at (fs w) FLASHINFER_WORKSPACE_DIR = Some File ->
  fs w !! log_path = None ->
  module_init w = (Raises (Exn NotADirectoryError (path_str log_path)), w).
Proof.
  intros Himp Hws Hlog.
  pose proof (import_prebuilt_ops_world w) as Hw.
  unfold module_init, bind at 1.
  destruct (import_prebuilt_ops w) as [o w0]. simpl in Himp, Hw. subst o w0.
  unfold bind at 1. rewrite ensure_workspace_dir_run.
  rewrite makedirs_error_ok by (left; rewrite Hws; eauto).
  rewrite set_fs_same by (unfold ensure_dir; now rewrite Hws).
  unfold bind at 1. rewrite logger_init_unfold. unfold bind at 1.
  pose proof (node_at_log_path (fs w)) as Hn. rewrite Hlog in Hn.
  rewrite bool_decide_eq_false_2 by (rewrite Hn; intros [? ?]; discriminate).
  simpl. rewrite open_create_under_file;
    [reflexivity|exact Hn|rewrite log_path_parent; exact Hws].
Qed.

(** ** More on the build entry point *)

Lemma string_length_append (a b : string) :
  String.length (a +:+ b) = (String.length a + String.length b)%nat.
Proof.
  induction a as [|c a IH]; [reflexivity|].
  rewrite append_cons. simpl. now rewrite IH.
Qed.

Lemma lock_name_neq (name : string) : name +:+ ".lock" <> name.
Proof.
  intros H. apply (f_equal String.length) in H.
  rewrite string_length_append in H. simpl in H. lia.
Qed.

Lemma lock_path_neq_build (name : string) :
  FLASHINFER_JIT_DIR ++ [name +:+ ".lock"] <> FLASHINFER_JIT_DIR ++ [name].
Proof. intros H. apply snoc_inj in H. now apply lock_name_neq in H. Qed.

Lemma touch_lock_file_keeps (p : path) (m : gmap path node) (q : path) (n : node) :
  m !! q = Some n -> touch_lock_file p m !! q = Some n.
Proof.
  intros H. unfold touch_lock_file. destruct (node_at m p) eqn:E; [exact H|].
  rewrite lookup_insert_ne; [exact H|].
  intros <-. destruct p; [discriminate|]. rewrite node_at_cons in E. congruence.
Qed.


Lemma touch_lock_file_there (d : path) (x : string) (m : gmap path node) :
  is_Some (touch_lock_file (d ++ [x]) m !! (d ++ [x])).
Proof.
  unfold touch_lock_file. rewrite node_at_snoc.
  destruct (m !! (d ++ [x])) eqn:E; [rewrite E; eauto|].
  rewrite lookup_insert_eq. eauto.
Qed.

(** The world a call leaves when it has passed the check, made sure of
    the build directory and taken the lock. *)
Lemma load_cuda_ops_world
    (name : string) (sources : list pathlike) (ecf ecuf : list string)
    (eld : option (list string)) (eip : option (list pathlike)) (verbose : bool)
    (w : World) :
  fst (check_cuda_arch w) = Returns tt ->
  makedirs_error (fs w) (FLASHINFER_JIT_DIR ++ [name]) = None ->
  FLASHINFER_JIT_DIR ++ [name +:+ ".lock"] ∉ held_locks w ->
  exists a,
    let r := torch_load a (disk_at_load name (fs w)) in
    let w1 :=
      add_load_call a
        (set_fs (fun _ => snd r)
           (set_held (union {[ FLASHINFER_JIT_DIR ++ [name +:+ ".lock"] ]})
              (set_fs (disk_at_load name)
                 (add_log ("flashinfer.jit: " +:+ "Loading JIT ops: " +:+ name) w)))) in
    load_cuda_ops name sources ecf ecuf eld eip verbose w =
      (fst r,
       match fst r with
       | Blocks => w1
       | _ => set_held (fun s => s ∖ {[ FLASHINFER_JIT_DIR ++ [name +:+ ".lock"] ]}) w1
       end).
Proof.
  intros H Hd Hfree. rewrite load_cuda_ops_checked by assumption. rewrite Hd.
  rewrite with_lock_free by exact Hfree.
  unfold torch_cpp_ext_load.
  change (fs (set_held _ (set_fs (touch_lock_file ?p) (set_fs (ensure_dir ?d) ?v))))
    with (touch_lock_file p (ensure_dir d (fs w))).
  fold (disk_at_load name (fs w)).
  match goal with |- context [torch_load ?a _] => exists a end.
  cbv zeta.
  now destruct (torch_load _ (disk_at_load name (fs w))) as [[x|e|] m].
Qed.

Lemma lock_released (p : path) (s : gset path) :
  p ∉ s -> ({[ p ]} ∪ s) ∖ {[ p ]} = s.
Proof.
  intros H. apply set_eq. intros x.
  rewrite elem_of_difference, elem_of_union, !elem_of_singleton.
  split; [tauto|]. intros Hx. split; [now right|]. congruence.
Qed.

(** X9. A call that comes back, by returning or by raising at any point,
    leaves no lock behind: the locks are as before the call. A call
    that invoked the loader ends as the loader ended and leaves the disk
    as the loader left it. *)
Theorem load_cuda_ops_releases_lock
    (name : string) (sources : list pathlike) (ecf ecuf : list string)
    (eld : option (list string)) (eip : option (list pathlike)) (verbose : bool)
    (w : World) :
  (fst (load_cuda_ops name sources ecf ecuf eld eip verbose w) <> Blocks ->
   held_locks (snd (load_cuda_ops name sources ecf ecuf eld eip verbose w))
     = held_locks w)
  /\ (forall a,
        load_calls (snd (load_cuda_ops name sources ecf ecuf eld eip verbose w))
          = load_calls w ++ [a] ->
        fst (load_cuda_ops name sources ecf ecuf eld eip verbose w)
          = fst (torch_load a (disk_at_load name (fs w)))
        /\ fs (snd (load_cuda_ops name sources ecf ecuf eld eip verbose w))
           = snd (torch_load a (disk_at_load name (fs w)))).
Proof.
  split.
  - destruct (fst (check_cuda_arch w)) as [[]|e|] eqn:Hc.
    + destruct (makedirs_error (fs w) (FLASHINFER_JIT_DIR ++ [name]))
        as [e|] eqn:Hd.
      * now rewrite (load_cuda_ops_no_dir _ _ _ _ _ _ _ w e Hc Hd).
      * destruct (decide (FLASHINFER_JIT_DIR ++ [name +:+ ".lock"] ∈ held_locks w))
          as [Hheld|Hfree].
        -- destruct (load_cuda_ops_waits name sources ecf ecuf eld eip verbose w
                       Hc Hd Hheld) as (w' & E & _).
           rewrite E. simpl. congruence.
        -- destruct (load_cuda_ops_world name sources ecf ecuf eld eip verbose w
                       Hc Hd Hfree) as (a & E).
           cbv zeta in E. rewrite E. simpl.
           destruct (fst (torch_load a (disk_at_load name (fs w))));
             simpl; intros Hnb; try congruence; now apply lock_released.
    + now rewrite (load_cuda_ops_gate _ _ _ _ _ _ _ w e Hc).
    + exfalso. now apply (check_cuda_arch_never_blocks w).
  - intros a Ha.
    destruct (load_cuda_ops_trace name sources ecf ecuf eld eip verbose w)
      as [(Hok & Hd & Hfree)|Hsame].
    + destruct (load_cuda_ops_loads name sources ecf ecuf eld eip verbose w
                  Hok Hd Hfree) as (a0 & w' & E & Hfs & Hcalls & _).
      rewrite E in *. simpl in *. rewrite Hcalls in Ha.
      apply app_inv_head in Ha. injection Ha as <-. now split.
    + rewrite Hsame in Ha. now apply trace_not_extended in Ha.
Qed.

(** X10. A call that passes the check, on a disk where the JIT directory
    is a directory, but finds the lock file locked waits: the loader is
    not invoked and the locks are as they were, while the build
    directory has already been made. *)
Theorem load_cuda_ops_blocked
    (name : string) (sources : list pathlike) (ecf ecuf : list string)
    (eld : option (list string)) (eip : option (list pathlike)) (verbose : bool)
    (w : World) :
  fst (check_cuda_arch w) = Returns tt ->
  node_at (fs w) FLASHINFER_JIT_DIR = Some Dir ->
  FLASHINFER_JIT_DIR ++ [name +:+ ".lock"] ∈ held_locks w ->
  exists w',
    load_cuda_ops name sources ecf ecuf eld eip verbose w = (Blocks, w')
    /\ load_calls w' = load_calls w
    /\ held_locks w' = held_locks w
    /\ is_Some (fs w' !! (FLASHINFER_JIT_DIR ++ [name])).
Proof.
  intros H Hjit Hheld.
  pose proof (makedirs_error_in_dir (fs w) FLASHINFER_JIT_DIR name Hjit) as Hd.
  rewrite load_cuda_ops_checked by assumption. rewrite Hd.
  rewrite with_lock_held by exact Hheld.
  eexists. split; [reflexivity|]. simpl. repeat split.
  now apply ensure_dir_there.
Qed.

(** X14. Every call, however it ends, appends exactly one record to the
    log, naming the module. *)
Theorem load_cuda_ops_logs_once
    (name : string) (sources : list pathlike) (ecf ecuf : list string)
    (eld : option (list string)) (eip : option (list pathlike)) (verbose : bool)
    (w : World) :
  log (snd (load_cuda_ops name sources ecf ecuf eld eip verbose w))
    = log w ++ ["flashinfer.jit: Loading JIT ops: " +:+ name].
Proof.
  destruct (fst (check_cuda_arch w)) as [[]|e|] eqn:Hc.
  - destruct (makedirs_error (fs w) (FLASHINFER_JIT_DIR ++ [name]))
      as [e|] eqn:Hd.
    + now rewrite (load_cuda_ops_no_dir _ _ _ _ _ _ _ w e Hc Hd).
    + destruct (decide (FLASHINFER_JIT_DIR ++ [name +:+ ".lock"] ∈ held_locks w))
        as [Hheld|Hfree].
      * rewrite load_cuda_ops_checked by assumption. rewrite Hd.
        now rewrite with_lock_held by exact Hheld.
      * destruct (load_cuda_ops_world name sources ecf ecuf eld eip verbose w
                    Hc Hd Hfree) as (a & E). cbv zeta in E. rewrite E. simpl.
        now destruct (fst (torch_load a (disk_at_load name (fs w)))).
  - now rewrite (load_cuda_ops_gate _ _ _ _ _ _ _ w e Hc).
  - exfalso. now apply (check_cuda_arch_never_blocks w).
Qed.



Lemma ensure_dir_fixed (d : path) (m : gmap path node) :
  is_Some (node_at m d) -> ensure_dir d m = m.
Proof. intros [k H]. unfold ensure_dir. now rewrite H. Qed.

Lemma touch_lock_file_fixed (p : path) (m : gmap path node) :
  is_Some (node_at m p) -> touch_lock_file p m = m.
Proof. intros [k H]. unfold touch_lock_file. now rewrite H. Qed.

(** X12. Preparing the disk again changes nothing: a later call for the
    same module finds the build directory and the lock file in place. *)
Theorem disk_at_load_idempotent (name : string) (m : gmap path node) :
  disk_at_load name (disk_at_load name m) = disk_at_load name m.
Proof.
  unfold disk_at_load.
  set (b := FLASHINFER_JIT_DIR ++ [name]).
  set (l := FLASHINFER_JIT_DIR ++ [name +:+ ".lock"]).
  assert (Hl : is_Some (node_at (touch_lock_file l (ensure_dir b m)) l)).
  { unfold l. rewrite node_at_snoc. apply touch_lock_file_there. }
  assert (E1 : ensure_dir b (touch_lock_file l (ensure_dir b m))
               = touch_lock_file l (ensure_dir b m)).
  { destruct (makedirs_error_cases m b) as [He|(Hnone & Hn & _)].
    - apply ensure_dir_fixed. unfold b. rewrite node_at_snoc.
      destruct (ensure_dir_there FLASHINFER_JIT_DIR name m He) as [k Hk].
      exists k. now apply touch_lock_file_keeps.
    - destruct (makedirs_error_blocked m b Hnone Hn) as [_ Hm]. rewrite Hm.
      destruct (node_at m l) as [k|] eqn:El.
      + rewrite (touch_lock_file_fixed l m) by eauto. exact Hm.
      + unfold touch_lock_file at 1 2. rewrite El.
        apply (makedirs_error_blocked (<[l:=File]> m) b).
        * unfold b in *. rewrite node_at_snoc in *.
          rewrite lookup_insert_ne; [exact Hnone|]. apply lock_path_neq_build.
        * rewrite <- Hn. unfold nearest_ancestor. apply nearest_ext.
          intros x Hx. apply lookup_insert_ne. intros <-.
          apply ancestors_length in Hx. unfold l, b in Hx.
          rewrite !length_app in Hx. simpl in Hx. lia. }
  rewrite E1. now apply touch_lock_file_fixed.
Qed.

(** X13. Every invocation of the loader receives the module name, the
    sources as strings in the caller's order, the caller's linker flags
    and verbosity unchanged, the module's directory under the JIT
    directory as build directory, and [with_cuda] set. *)
Theorem load_cuda_ops_arguments
    (name : string) (sources : list pathlike) (ecf ecuf : list string)
    (eld : option (list string)) (eip : option (list pathlike)) (verbose : bool)
    (w : World) (a : LoadArgs) :
  load_calls (snd (load_cuda_ops name sources ecf ecuf eld eip verbose w))
    = load_calls w ++ [a] ->
  la_name a = name
  /\ la_sources a = map py_str sources
  /\ la_extra_ldflags a = eld
  /\ la_build_directory a = FLASHINFER_JIT_DIR ++ [name]
  /\ la_verbose a = verbose
  /\ la_with_cuda a = true.
Proof.
  intros Hcalls.
  destruct (load_cuda_ops_trace name sources ecf ecuf eld eip verbose w)
    as [(Hc & Hd & Hfree)|Hsame];
    [|rewrite Hsame in Hcalls; now apply trace_not_extended in Hcalls].
  destruct (load_cuda_ops_loads name sources ecf ecuf eld eip verbose w Hc Hd Hfree)
    as (a0 & w' & E & _ & Hc0 & Ha0).
  rewrite E in Hcalls. simpl in Hcalls. rewrite Hc0 in Hcalls.
  apply app_inv_head in Hcalls. injection Hcalls as ->.
  rewrite Ha0. simpl. repeat split; reflexivity.
Qed.

(** X19. A build directory that is missing and cannot be made, because a
    regular file is its nearest existing ancestor, ends a call that
    passed the check with the [NotADirectoryError] of [os.makedirs]: the
    lock is not taken, the loader is not invoked and the disk is
    unchanged. *)
Theorem load_cuda_ops_file_in_the_way
    (name : string) (sources : list pathlike) (ecf ecuf : list string)
    (eld : option (list string)) (eip : option (list pathlike)) (verbose : bool)
    (w : World) :
  fst (check_cuda_arch w) = Returns tt ->
  node_at (fs w) (FLASHINFER_JIT_DIR ++ [name]) = None ->
  nearest_ancestor (fs w) (FLASHINFER_JIT_DIR ++ [name]) = File ->
  (exists msg,
     fst (load_cuda_ops name sources ecf ecuf eld eip verbose w)
     = Raises (Exn NotADirectoryError msg))
  /\ load_calls (snd (load_cuda_ops name sources ecf ecuf eld eip verbose w))
     = load_calls w
  /\ held_locks (snd (load_cuda_ops name sources ecf ecuf eld eip verbose w))
     = held_locks w
  /\ fs (snd (load_cuda_ops name sources ecf ecuf eld eip verbose w)) = fs w.
Proof.
  intros Hc Hnone Hn.
  destruct (makedirs_error_blocked _ _ Hnone Hn) as [[msg He] _].
  rewrite (load_cuda_ops_no_dir _ _ _ _ _ _ _ w _ Hc He). simpl. eauto.
Qed.

(** ** More on the regular expression *)

Lemma take_digits_rest (s : string) :
  exists r, s = Re.take_digits s +:+ r /\ Re.take_digits r = "".
Proof.
  induction s as [|c s (r & IH & Hr)]; simpl.
  - now exists "".
  - destruct (Re.is_digit c) eqn:E.
    + exists r. rewrite append_cons. split; [now f_equal|exact Hr].
    + exists (String c s). split; [reflexivity|]. simpl. now rewrite E.
Qed.

Lemma take_digits_app (g rest : string) :
  Re.all_digits g = true ->
  Re.take_digits (g +:+ rest) = g +:+ Re.take_digits rest.
Proof.
  induction g as [|c g IH]; intros H; [reflexivity|].
  simpl in H. apply andb_true_iff in H as [Hc Hg].
  rewrite !append_cons. simpl. rewrite Hc. now rewrite IH.
Qed.

Lemma append_nil_r (s : string) : s +:+ "" = s.
Proof.
  induction s as [|c s IH]; [reflexivity|]. rewrite append_cons. now f_equal.
Qed.

Lemma append_eq_nil (p q : string) : "" = p +:+ q -> q = "".
Proof.
  destruct p; [intros H; symmetry; exact H|].
  rewrite append_cons. discriminate.
Qed.

(** The match at the first position, spelled out. *)
Lemma match_here_Some_iff (s g : string) :
  Re.match_here s = Some g <->
  exists rest, s = "compute_" +:+ g +:+ rest /\ g <> ""
               /\ Re.all_digits g = true /\ Re.take_digits rest = "".
Proof.
  unfold Re.match_here. split.
  - destruct (Re.strip_prefix "compute_" s) as [t|] eqn:P; [|discriminate].
    apply strip_prefix_sound in P.
    destruct (take_digits_rest t) as (rest & Ht & Hrest).
    destruct (Re.take_digits t) as [|c ds] eqn:T; [discriminate|].
    intros [= <-]. exists rest. split; [now rewrite <- Ht|].
    split; [discriminate|]. split; [|exact Hrest].
    rewrite <- T. apply take_digits_all_digits.
  - intros (rest & -> & Hne & Hd & Hrest).
    rewrite strip_prefix_complete, take_digits_app, Hrest, append_nil_r by exact Hd.
    now destruct g.
Qed.

(** X15. [re.search] finds a match exactly in the strings that carry a
    [compute_<digits>] marker. *)
Theorem search_matches_iff_marker (s : string) :
  is_Some (Re.search s) <-> has_marker s.
Proof.
  split.
  - intros [g H]. eauto using search_marker.
  - apply marker_search.
Qed.

(** X16. Group 1 of the match is the full digit run after the leftmost
    [compute_] that is followed by a digit: [search s] is [g] exactly
    when [s] reads [pre], [compute_], [g], [rest] with [g] a non-empty
    digit string, [rest] not starting with a digit, and no match
    starting inside [pre]. *)
Theorem search_leftmost_greedy (s g : string) :
  Re.search s = Some g <->
  exists pre rest,
    s = pre +:+ "compute_" +:+ g +:+ rest
    /\ g <> "" /\ Re.all_digits g = true /\ Re.take_digits rest = ""
    /\ forall p q, pre = p +:+ q -> q <> "" ->
         ~ exists ds t, ds <> "" /\ Re.all_digits ds = true
                        /\ q +:+ "compute_" +:+ g +:+ rest = "compute_" +:+ ds +:+ t.
Proof.
  assert (Hnone : forall u,
            Re.match_here u = None <->
            ~ exists ds t, ds <> "" /\ Re.all_digits ds = true
                           /\ u = "compute_" +:+ ds +:+ t).
  { intros u. split.
    - intros Hu (ds & t & Hne & Hd & ->).
      unfold Re.match_here in Hu.
      rewrite strip_prefix_complete, take_digits_app in Hu by exact Hd.
      destruct ds as [|c ds]; [congruence|].
      rewrite append_cons in Hu. discriminate.
    - intros Hu. destruct (Re.match_here u) as [g'|] eqn:E; [|reflexivity].
      exfalso. apply Hu. apply match_here_Some_iff in E as (rest & -> & ? & ? & _).
      eauto. }
  split.
  - revert g. induction s as [|c s IH]; intros g; rewrite search_unfold.
    + destruct (Re.match_here "") eqn:E; [discriminate E|discriminate].
    + destruct (Re.match_here (String c s)) as [g'|] eqn:E.
      * intros [= <-]. apply match_here_Some_iff in E as (rest & Hs & Hne & Hd & Hr).
        exists "", rest. rewrite append_nil_l. repeat split; auto.
        intros p q Hpq Hq. apply append_eq_nil in Hpq. contradiction.
      * intros H. apply IH in H as (pre & rest & Hs & Hne & Hd & Hr & Hleft).
        exists (String c pre), rest. rewrite append_cons, <- Hs.
        repeat split; auto.
        intros p q Hpq Hq. destruct p as [|c' p].
        -- assert (Hq' : q = String c pre) by (symmetry; exact Hpq). subst q.
           rewrite append_cons, <- Hs. now apply Hnone.
        -- rewrite append_cons in Hpq. injection Hpq as <- Hpre.
           now apply Hleft with p.
  - intros (pre & rest & -> & Hne & Hd & Hr & Hleft).
    induction pre as [|c pre IH]; rewrite search_unfold.
    + rewrite append_nil_l.
      assert (Hm : Re.match_here ("compute_" +:+ g +:+ rest) = Some g).
      { apply match_here_Some_iff. eauto. }
      now rewrite Hm.
    + assert (Hm : Re.match_here (String c pre +:+ "compute_" +:+ g +:+ rest) = None).
      { apply Hnone. apply (Hleft "" (String c pre)); [reflexivity|discriminate]. }
      rewrite Hm. rewrite append_cons. apply IH.
      intros p q Hpq Hq. apply (Hleft (String c p) q); [|exact Hq].
      rewrite append_cons. now f_equal.
Qed.

(** ** More on flag sanitisation *)

Lemma discard_flag_sublist (l : list string) (x : string) :
  sublist (discard_flag l x) l.
Proof.
  unfold discard_flag. induction l as [|y l IH]; simpl; [constructor|].
  destruct (decide (x = y)); simpl.
  - now apply sublist_cons.
  - destruct (list_remove x l); simpl in *.
    + now apply sublist_skip.
    + reflexivity.
Qed.

Lemma foldl_discard_sublist (fl l : list string) :
  sublist (foldl discard_flag l fl) l.
Proof.
  revert l. induction fl as [|x fl IH]; intros l; simpl; [reflexivity|].
  etransitivity; [apply IH|apply discard_flag_sublist].
Qed.

(** X17. The sanitisation only deletes entries of the shared flag list: what
    is left is the old list with some entries taken out, in the old
    order, and nothing else in the world changes. *)
Theorem sanitize_only_deletes (w : World) :
  sublist (COMMON_NVCC_FLAGS (snd (remove_unwanted_pytorch_nvcc_flags w)))
    (COMMON_NVCC_FLAGS w)
  /\ fs (snd (remove_unwanted_pytorch_nvcc_flags w)) = fs w
  /\ cuda_arch_flags (snd (remove_unwanted_pytorch_nvcc_flags w)) = cuda_arch_flags w
  /\ log (snd (remove_unwanted_pytorch_nvcc_flags w)) = log w
  /\ held_locks (snd (remove_unwanted_pytorch_nvcc_flags w)) = held_locks w
  /\ load_calls (snd (remove_unwanted_pytorch_nvcc_flags w)) = load_calls w.
Proof.
  rewrite remove_unwanted_spec. cbn [snd set_nvcc_flags COMMON_NVCC_FLAGS fs
    cuda_arch_flags log held_locks load_calls].
  split; [apply foldl_discard_sublist|]. repeat split.
Qed.

(** X18. After the sanitisation none of the four unwanted flags is left in
    the shared list exactly when none of them was listed more than once
    before. *)
Theorem sanitize_clears_iff (w : World) :
  (forall flag, flag ∈ REMOVE_NVCC_FLAGS ->
     flag ∉ COMMON_NVCC_FLAGS (snd (remove_unwanted_pytorch_nvcc_flags w)))
  <-> (forall flag, flag ∈ REMOVE_NVCC_FLAGS ->
         (occurrences flag (COMMON_NVCC_FLAGS w) <= 1)%nat).
Proof.
  rewrite remove_unwanted_spec. cbn [snd set_nvcc_flags COMMON_NVCC_FLAGS].
  pose proof REMOVE_NVCC_FLAGS_NoDup as Hnd.
  assert (Hocc : forall flag, flag ∈ REMOVE_NVCC_FLAGS ->
            occurrences flag (foldl discard_flag (COMMON_NVCC_FLAGS w) REMOVE_NVCC_FLAGS)
            = Nat.pred (occurrences flag (COMMON_NVCC_FLAGS w))).
  { intros flag Hin. rewrite occurrences_foldl_discard by exact Hnd.
    destruct (decide (flag ∈ REMOVE_NVCC_FLAGS)); [reflexivity|contradiction]. }
  split; intros H flag Hin; specialize (H flag Hin); specialize (Hocc flag Hin).
  - apply occurrences_zero in H. lia.
  - apply occurrences_zero. lia.
Qed.

(** ** More on clearing the cache directory: directories *)

(** X2. With a subdirectory among its entries the JIT directory is not
    cleared: the call ends with [IsADirectoryError] raised for one of
    its entries, and that subdirectory is still listed afterwards. *)
Theorem clear_cache_dir_stops_at_directory (w : World) (n : string) :
  node_at (fs w) FLASHINFER_JIT_DIR = Some Dir ->
  fs w !! (FLASHINFER_JIT_DIR ++ [n]) = Some Dir ->
  (exists f, fst (clear_cache_dir w)
             = Raises (Exn IsADirectoryError (path_str (FLASHINFER_JIT_DIR ++ [f]))))
  /\ n ∈ entries (fs (snd (clear_cache_dir w))) FLASHINFER_JIT_DIR.
Proof.
  intros Hd Hn.
  destruct (clear_cache_dir_subdirectory w n Hd Hn) as (f & w' & E & Hin).
  rewrite E. simpl. eauto.
Qed.

(** X8. The directory check is idempotent: run again on the world it
    has left, it ends in the same way, by returning or by raising the
    same error, and changes nothing further. *)
Theorem ensure_workspace_dir_idempotent (w : World) :
  ensure_workspace_dir (snd (ensure_workspace_dir w))
  = (fst (ensure_workspace_dir w), snd (ensure_workspace_dir w)).
Proof.
  rewrite (ensure_workspace_dir_run w).
  destruct (makedirs_error_cases (fs w) FLASHINFER_WORKSPACE_DIR)
    as [He|(Hnone & Hn & msg & He)]; rewrite He; simpl.
  - rewrite ensure_workspace_dir_run. simpl.
    assert (Hs : is_Some (node_at (ensure_dir FLASHINFER_WORKSPACE_DIR (fs w))
                            FLASHINFER_WORKSPACE_DIR)).
    { destruct (node_at (fs w) FLASHINFER_WORKSPACE_DIR) as [k|] eqn:E.
      - rewrite ensure_dir_fixed by (rewrite E; eauto). rewrite E. eauto.
      - rewrite ensure_dir_makes; [eauto|exact He|]. rewrite E. discriminate. }
    rewrite makedirs_error_ok by now left.
    f_equal. apply set_fs_same. simpl. now apply ensure_dir_fixed.
  - rewrite ensure_workspace_dir_run. now rewrite He.
Qed.

(** ** Which occurrence the sanitisation removes *)

Lemma list_remove_first (x : string) (pre post : list string) :
  x ∉ pre -> list_remove x (pre ++ x :: post) = Some (pre ++ post).
Proof.
  induction pre as [|y pre IH]; intros H; simpl.
  - now rewrite decide_True.
  - apply not_elem_of_cons in H as [Hxy Hpre].
    rewrite decide_False by exact Hxy. now rewrite IH.
Qed.

(** X20. One round of the sanitisation loop removes the first occurrence
    of its flag and nothing else: on a list that reads [pre], the flag,
    [post], with the flag not in [pre], the list becomes [pre] followed
    by [post]; later occurrences, in [post], stay. A whole run is the
    four rounds in the order of [REMOVE_NVCC_FLAGS]. *)
Theorem sanitize_removes_first_occurrence :
  (forall (w : World) (flag : string) (pre post : list string),
     COMMON_NVCC_FLAGS w = pre ++ flag :: post -> flag ∉ pre ->
     try_except (COMMON_NVCC_FLAGS_remove flag) ValueError (ret tt) w
     = (Returns tt, set_nvcc_flags (pre ++ post) w))
  /\ (forall w : World,
        remove_unwanted_pytorch_nvcc_flags w
        = for_each
            [ "-D__CUDA_NO_HALF_OPERATORS__"; "-D__CUDA_NO_HALF_CONVERSIONS__";
              "-D__CUDA_NO_BFLOAT16_CONVERSIONS__"; "-D__CUDA_NO_HALF2_OPERATORS__" ]
            (fun flag =>
               try_except (COMMON_NVCC_FLAGS_remove flag) ValueError (ret tt)) w).
Proof.
  split; [|reflexivity].
  intros w flag pre post Hl Hpre.
  rewrite sanitize_round. unfold discard_flag.
  now rewrite Hl, list_remove_first.
Qed.

End Jit.

(** ** The statements on concrete inputs *)

Import Sample.

Lemma sm80_has_marker : has_marker sm80.
Proof.
  exists "-gencode=arch=", "80", ",code=sm_80".
  split; [reflexivity|]. split; [discriminate|reflexivity].
Qed.

Lemma sm70_has_marker : has_marker sm70.
Proof.
  exists "-gencode=arch=", "70", ",code=sm_70".
  split; [reflexivity|]. split; [discriminate|reflexivity].
Qed.

Lemma native_has_no_marker : ~ has_marker "-gencode=arch=native".
Proof. apply search_None_iff. reflexivity. Qed.

Lemma extracted_arch_samples :
  extracted_arch sm80 = Some 80
  /\ extracted_arch sm70 = Some 70
  /\ extracted_arch "-gencode=arch=compute_90a,code=sm_90a" = Some 90
  /\ extracted_arch "compute_,compute_075" = Some 75
  /\ extracted_arch "-gencode=arch=native" = None.
Proof. repeat split; reflexivity. Qed.

Lemma sm80_accepted (p : string) :
  p ∈ [sm80] -> exists k, extracted_arch p = Some k /\ 75 <= k.
Proof.
  intros H. apply list_elem_of_singleton in H as ->.
  exists 80. split; [reflexivity|lia].
Qed.

(** The check on the two-device build stops at the sm70 flag. *)
Lemma check_cuda_arch_threshold_witness :
  Forall has_marker (cuda_arch_flags world_mixed)
  /\ (exists e, fst (check_cuda_arch world_mixed) = Raises e).
Proof.
  assert (H : Forall has_marker (cuda_arch_flags world_mixed)).
  { repeat constructor; [apply sm80_has_marker|apply sm70_has_marker]. }
  split; [exact H|].
  apply (proj1 (check_cuda_arch_threshold world_mixed H)).
  exists sm70, 70. split; [|split; [reflexivity|lia]].
  apply elem_of_cons. right. apply elem_of_cons. now left.
Defined.

(** With markers the check ends in one of the two designed ways; the
    flag string without an architecture ends it with the attribute
    error. *)
Lemma check_cuda_arch_needs_markers_witness :
  (check_cuda_arch world_sm80 = (Returns tt, world_sm80)
   \/ check_cuda_arch world_sm80
      = (Raises (Exn RuntimeError "FlashInfer requires sm75+"), world_sm80))
  /\ check_cuda_arch world_no_arch
     = (Raises (Exn AttributeError "'NoneType' object has no attribute 'group'"),
        world_no_arch).
Proof.
  split.
  - apply (proj1 (proj2 check_cuda_arch_needs_markers) world_sm80).
    repeat constructor. apply sm80_has_marker.
  - apply (proj2 (proj2 (proj2 check_cuda_arch_needs_markers))
             world_no_arch [sm80] "-gencode=arch=native" []).
    + reflexivity.
    + apply sm80_accepted.
    + apply native_has_no_marker.
Defined.

(** C4, as stated, fails: with an unwanted flag listed twice the first
    run leaves one copy, which the second run removes. *)
Lemma sanitize_twice_differs :
  COMMON_NVCC_FLAGS
    (snd (remove_unwanted_pytorch_nvcc_flags
            (snd (remove_unwanted_pytorch_nvcc_flags world_dup))))
  <> COMMON_NVCC_FLAGS (snd (remove_unwanted_pytorch_nvcc_flags world_dup)).
Proof. vm_compute. discriminate. Qed.

(** On the flag list of the framework, where each unwanted flag stands
    once, the second run changes nothing. *)
Lemma sanitize_twice_iff_witness :
  snd (remove_unwanted_pytorch_nvcc_flags
         (snd (remove_unwanted_pytorch_nvcc_flags world_sm80)))
  = snd (remove_unwanted_pytorch_nvcc_flags world_sm80).
Proof.
  apply (proj2 (sanitize_twice_iff world_sm80)).
  intros flag H. unfold REMOVE_NVCC_FLAGS in H.
  repeat (apply elem_of_cons in H as [->|H]; [vm_compute; lia|]).
  inversion H.
Defined.

(** A flag that is not in the list is passed over. *)
Lemma sanitize_ignores_missing_witness :
  try_except (COMMON_NVCC_FLAGS_remove "-D__CUDA_NO_HALF_OPERATORS__")
    ValueError (ret tt) world_few_flags
  = (Returns tt, world_few_flags)
  /\ occurrences "-D__CUDA_NO_HALF2_OPERATORS__"
       (COMMON_NVCC_FLAGS (snd (remove_unwanted_pytorch_nvcc_flags world_few_flags)))
     = Nat.pred (occurrences "-D__CUDA_NO_HALF2_OPERATORS__"
                   (COMMON_NVCC_FLAGS world_few_flags)).
Proof.
  split.
  - apply (proj1 sanitize_ignores_missing).
    intros H. simpl in H.
    repeat (apply elem_of_cons in H as [H|H]; [discriminate|]).
    inversion H.
  - apply (proj1 (proj2 (proj2 sanitize_ignores_missing))).
    unfold REMOVE_NVCC_FLAGS.
    do 3 (apply elem_of_cons; right). apply elem_of_cons. now left.
Defined.

(** A missing registry module and a present one. *)
Lemma import_prebuilt_ops_spec_witness :
  import_prebuilt_ops
    (Raises (Exn ModuleNotFoundError "No module named 'flashinfer.jit.aot_config'"))
    world_sm80
  = (Returns (∅, false), world_sm80)
  /\ import_prebuilt_ops (Returns registry) world_sm80
     = (Returns (registry, true), world_sm80).
Proof.
  split.
  - apply (proj1 (import_prebuilt_ops_spec _ world_sm80) _ eq_refl).
    reflexivity.
  - apply (proj2 (proj2 (import_prebuilt_ops_spec _ world_sm80)) _ eq_refl).
Defined.

(** The workspace root on an empty disk, under a regular file, and on a
    disk that has it. *)
Lemma ensure_workspace_dir_spec_witness :
  (exists w',
     ensure_workspace_dir workspace_dir world_sm80 = (Returns tt, w')
     /\ node_at (fs w') workspace_dir = Some Dir
     /\ (forall p n, fs world_sm80 !! p = Some n -> fs w' !! p = Some n))
  /\ (exists msg,
        ensure_workspace_dir workspace_dir world_home_file
        = (Raises (Exn NotADirectoryError msg), world_home_file))
  /\ ensure_workspace_dir workspace_dir world_built = (Returns tt, world_built).
Proof.
  split; [|split].
  - apply (proj1 (ensure_workspace_dir_spec workspace_dir world_sm80));
      reflexivity.
  - apply (proj1 (proj2 (ensure_workspace_dir_spec workspace_dir world_home_file)));
      reflexivity.
  - apply (proj2 (proj2 (ensure_workspace_dir_spec workspace_dir world_built))).
    exists Dir. vm_compute. reflexivity.
Defined.

(** C7, as stated, fails: with a regular file where the home directory
    should be, the workspace root does not exist, and the check does not
    make it: [os.makedirs] raises [NotADirectoryError] and the workspace
    root is still missing. *)
Lemma ensure_workspace_dir_not_created :
  node_at (fs world_home_file) workspace_dir = None
  /\ fst (ensure_workspace_dir workspace_dir world_home_file)
     = Raises (Exn NotADirectoryError "/home/u")
  /\ node_at (fs (snd (ensure_workspace_dir workspace_dir world_home_file)))
       workspace_dir = None.
Proof. repeat split; vm_compute; reflexivity. Qed.

(** A build on the two-device machine stops at the check; on the sm80
    machine a failing compiler is reported as it failed. *)
Lemma load_cuda_ops_errors_witness :
  fst (load_cuda_ops jit_dir include_dir csrc_dir cutlass_dirs nat load_ok
         "m" [PStr "m.cu"] [] [] None None false world_mixed)
  = Raises (Exn RuntimeError "FlashInfer requires sm75+")
  /\ fst (load_cuda_ops jit_dir include_dir csrc_dir cutlass_dirs nat load_fails
            "m" [PStr "m.cu"] [] [] None None false world_sm80)
     = Raises (Exn RuntimeError "Error building extension").
Proof.
  split.
  - apply (proj1 (load_cuda_ops_errors jit_dir include_dir csrc_dir cutlass_dirs
                    nat load_ok "m" [PStr "m.cu"] [] [] None None false world_mixed)).
    + repeat constructor; [apply sm80_has_marker|apply sm70_has_marker].
    + exists sm70, 70. split; [|split; [reflexivity|lia]].
      apply elem_of_cons. right. apply elem_of_cons. now left.
  - destruct (load_cuda_ops_errors jit_dir include_dir csrc_dir
                cutlass_dirs nat load_fails "m" [PStr "m.cu"] [] []
                None None false world_sm80) as (_ & _ & Hloader & Hreach).
    destruct Hreach as (a & Ha).
    + reflexivity.
    + right. reflexivity.
    + apply not_elem_of_empty.
    + destruct (Hloader a Ha) as (_ & _ & _ & Hraise).
      apply Hraise. reflexivity.
Defined.

(** A build with one extra host flag: the loader is invoked once, with
    the defaults in front of the caller's flag and the default include
    paths. *)
Lemma load_cuda_ops_flags_witness :
  exists a,
    load_calls (snd (load_cuda_ops jit_dir include_dir csrc_dir cutlass_dirs nat
                       load_ok "m" [PStr "m.cu"] ["-g"] [] None None false
                       world_sm80)) = [a]
    /\ la_extra_cflags a = ["-O3"; "-Wno-switch-bool"; "-g"]
    /\ la_extra_cuda_cflags a =
         [ "-O3"; "-std=c++17"; "--threads"; "4"; "-use_fast_math";
           "-DFLASHINFER_ENABLE_BF16"; "-DFLASHINFER_ENABLE_FP8" ]
    /\ la_extra_include_paths a =
         [ "/opt/flashinfer/include"; "/opt/flashinfer/csrc";
           "/opt/cutlass/include"; "/opt/cutlass/tools/util/include" ].
Proof.
  destruct (load_cuda_ops_flags jit_dir include_dir csrc_dir cutlass_dirs nat
              load_ok "m" [PStr "m.cu"] ["-g"] [] None None false world_sm80)
    as (new & Hcalls & _ & Hone & Hargs).
  destruct new as [|a [|b new]].
  - exfalso. discriminate Hone;
      [reflexivity|right; reflexivity|apply not_elem_of_empty].
  - exists a. split; [exact Hcalls|].
    destruct (Hargs a) as (Hc & Hcu & Hinc & _); [now left|].
    split; [exact Hc|]. split; [rewrite Hcu; reflexivity|].
    rewrite (Hinc eq_refl). reflexivity.
  - exfalso. discriminate Hone;
      [reflexivity|right; reflexivity|apply not_elem_of_empty].
Defined.

(** C3, on the cache directory as a build leaves it. Building the
    module [m] on an empty disk leaves its build directory and its lock
    file in the JIT directory; clearing the cache then stops at the
    build directory with [IsADirectoryError], and the JIT directory
    still has it. *)
Theorem clear_cache_dir_after_build :
  load_cuda_ops jit_dir include_dir csrc_dir cutlass_dirs nat load_ok
    "m" [PStr "m.cu"] [] [] None None false world_sm80
  = (Returns 0%nat,
     add_load_call
       {| la_name := "m";
          la_sources := ["m.cu"];
          la_extra_cflags := ["-O3"; "-Wno-switch-bool"];
          la_extra_cuda_cflags :=
            [ "-O3"; "-std=c++17"; "--threads"; "4"; "-use_fast_math";
              "-DFLASHINFER_ENABLE_BF16"; "-DFLASHINFER_ENABLE_FP8" ];
          la_extra_ldflags := None;
          la_extra_include_paths :=
            [ "/opt/flashinfer/include"; "/opt/flashinfer/csrc";
              "/opt/cutlass/include"; "/opt/cutlass/tools/util/include" ];
          la_build_directory := jit_dir ++ ["m"];
          la_verbose := false;
          la_with_cuda := true |}
       (add_log "flashinfer.jit: Loading JIT ops: m" world_built))
  /\ fst (clear_cache_dir jit_dir world_built)
     = Raises (Exn IsADirectoryError "/home/u/.cache/flashinfer/cached_ops/m")
  /\ fs (snd (clear_cache_dir jit_dir world_built)) !! (jit_dir ++ ["m"]) = Some Dir
  /\ "m" ∈ entries (fs (snd (clear_cache_dir jit_dir world_built))) jit_dir.
Proof.
  split; [vm_compute; reflexivity|].
  destruct (clear_cache_dir_subdirectory jit_dir world_built "m")
    as (f & w' & E & Hin); [reflexivity|reflexivity|].
  split; [vm_compute; reflexivity|].
  split; [vm_compute; reflexivity|].
  rewrite E. exact Hin.
Qed.

(** With regular files only, as here two lock files, the cache
    directory is emptied and kept. *)
Lemma clear_cache_dir_flat_disk :
  exists w',
    clear_cache_dir jit_dir (world flat_disk [] []) = (Returns tt, w')
    /\ entries (fs w') jit_dir = []
    /\ node_at (fs w') jit_dir = Some Dir.
Proof.
  eexists. split; [vm_compute; reflexivity|].
  split; vm_compute; reflexivity.
Qed.

(** ** Further statements on concrete inputs *)

Lemma flat_disk_files (n : string) (k : node) :
  fs (world flat_disk [] []) !! (jit_dir ++ [n]) = Some k -> k = File.
Proof.
  unfold world, flat_disk. cbn [fs list_to_map foldr uncurry curry fst snd].
  intros H.
  repeat (apply lookup_insert_Some in H as [[Hk Hn]|[_ H]];
          [try (symmetry; exact Hn); exfalso; cbn in Hk; discriminate Hk|]).
  rewrite lookup_empty in H. discriminate.
Qed.

(** Two lock files and nothing else in the JIT directory: cleared. *)
Lemma clear_cache_dir_files_only_witness :
  exists w',
    clear_cache_dir jit_dir (world flat_disk [] []) = (Returns tt, w')
    /\ entries (fs w') jit_dir = []
    /\ node_at (fs w') jit_dir = Some Dir.
Proof.
  apply (clear_cache_dir_files_only jit_dir (world flat_disk [] [])).
  - reflexivity.
  - apply flat_disk_files.
Defined.

(** The build directory of [m] stops the clearing. *)
Lemma clear_cache_dir_stops_at_directory_witness :
  (exists f, fst (clear_cache_dir jit_dir world_built)
             = Raises (Exn IsADirectoryError (path_str (jit_dir ++ [f]))))
  /\ "m" ∈ entries (fs (snd (clear_cache_dir jit_dir world_built))) jit_dir.
Proof.
  apply (clear_cache_dir_stops_at_directory jit_dir world_built "m");
    reflexivity.
Defined.

(** The workspace directory, which is no entry of the JIT directory,
    outlives a clearing that failed half way. *)
Lemma clear_cache_dir_frame_witness :
  fs (snd (clear_cache_dir jit_dir world_built)) !! workspace_dir = Some Dir.
Proof.
  apply (proj1 (proj2 (clear_cache_dir_frame jit_dir world_built))).
  reflexivity.
Defined.

(** The build directory of [m] is still there after the module has been
    imported again. *)
Lemma module_init_keeps_entries_witness :
  fs (snd (module_init workspace_dir no_registry world_built)) !! (jit_dir ++ ["m"])
  = Some Dir.
Proof.
  apply (module_init_keeps_entries workspace_dir no_registry world_built).
  reflexivity.
Defined.

(** A first import on an empty disk, without a registry. *)
Lemma module_init_succeeds_witness :
  exists w',
    module_init workspace_dir no_registry world_sm80 = (Returns (∅, false), w')
    /\ node_at (fs w') workspace_dir = Some Dir
    /\ fs w' !! log_path workspace_dir = Some File
    /\ COMMON_NVCC_FLAGS w'
       = COMMON_NVCC_FLAGS (snd (remove_unwanted_pytorch_nvcc_flags world_sm80))
    /\ log w' = log world_sm80 /\ held_locks w' = held_locks world_sm80
    /\ load_calls w' = load_calls world_sm80.
Proof.
  apply (module_init_succeeds workspace_dir no_registry world_sm80 (∅, false)).
  - reflexivity.
  - right. split; reflexivity.
  - discriminate.
Defined.

(** A registry module that does not parse stops the import. *)
Lemma module_init_import_failure_witness :
  module_init workspace_dir broken_registry world_sm80
  = (Raises (Exn (OtherError "SyntaxError") "invalid syntax"), world_sm80).
Proof.
  apply (module_init_import_failure workspace_dir broken_registry world_sm80);
    reflexivity.
Defined.

(** A regular file at the workspace path. *)
Lemma module_init_workspace_is_file_witness :
  module_init workspace_dir no_registry world_ws_file
  = (Raises (Exn NotADirectoryError (path_str (log_path workspace_dir))),
     world_ws_file).
Proof.
  apply (module_init_workspace_is_file workspace_dir no_registry world_ws_file
           (∅, false)); reflexivity.
Defined.

(** After a failed build no lock is held. *)
Lemma load_cuda_ops_releases_lock_witness :
  held_locks (snd (load_cuda_ops jit_dir include_dir csrc_dir cutlass_dirs nat
                     load_fails "m" [PStr "m.cu"] [] [] None None false world_sm80))
  = ∅.
Proof.
  apply (proj1 (load_cuda_ops_releases_lock jit_dir include_dir csrc_dir
                  cutlass_dirs nat load_fails "m" [PStr "m.cu"] [] [] None None
                  false world_sm80)).
  vm_compute. discriminate.
Defined.

(** A call made while another process holds the lock of [m]. *)
Lemma load_cuda_ops_blocked_witness :
  exists w',
    load_cuda_ops jit_dir include_dir csrc_dir cutlass_dirs nat load_ok
      "m" [PStr "m.cu"] [] [] None None false world_locked = (Blocks, w')
    /\ load_calls w' = []
    /\ held_locks w' = {[ jit_dir ++ ["m.lock"] ]}
    /\ is_Some (fs w' !! (jit_dir ++ ["m"])).
Proof.
  apply (load_cuda_ops_blocked jit_dir include_dir csrc_dir cutlass_dirs nat
           load_ok "m" [PStr "m.cu"] [] [] None None false world_locked).
  - reflexivity.
  - reflexivity.
  - vm_compute. reflexivity.
Defined.


(** A build while a regular file stands in the place of the JIT
    directory. *)
Lemma load_cuda_ops_file_in_the_way_witness :
  (exists msg,
     fst (load_cuda_ops jit_dir include_dir csrc_dir cutlass_dirs nat load_ok
            "m" [PStr "m.cu"] [] [] None None false world_jit_file)
     = Raises (Exn NotADirectoryError msg))
  /\ load_calls (snd (load_cuda_ops jit_dir include_dir csrc_dir cutlass_dirs nat
                        load_ok "m" [PStr "m.cu"] [] [] None None false
                        world_jit_file)) = []
  /\ held_locks (snd (load_cuda_ops jit_dir include_dir csrc_dir cutlass_dirs nat
                        load_ok "m" [PStr "m.cu"] [] [] None None false
                        world_jit_file)) = ∅
  /\ fs (snd (load_cuda_ops jit_dir include_dir csrc_dir cutlass_dirs nat
                load_ok "m" [PStr "m.cu"] [] [] None None false world_jit_file))
     = fs world_jit_file.
Proof.
  apply (load_cuda_ops_file_in_the_way jit_dir include_dir csrc_dir cutlass_dirs
           nat load_ok "m" [PStr "m.cu"] [] [] None None false world_jit_file);
    reflexivity.
Defined.

(** The one invocation of a plain build of [m]. *)
Lemma load_cuda_ops_arguments_witness :
  la_name plain_args = "m"
  /\ la_sources plain_args = map py_str [PStr "m.cu"]
  /\ la_extra_ldflags plain_args = None
  /\ la_build_directory plain_args = jit_dir ++ ["m"]
  /\ la_verbose plain_args = false
  /\ la_with_cuda plain_args = true.
Proof.
  apply (load_cuda_ops_arguments jit_dir include_dir csrc_dir cutlass_dirs nat
           load_ok "m" [PStr "m.cu"] [] [] None None false world_sm80 plain_args).
  vm_compute. reflexivity.
Defined.

(** The first of two copies goes, the second stays. *)
Lemma sanitize_removes_first_occurrence_witness :
  try_except (COMMON_NVCC_FLAGS_remove "-D__CUDA_NO_HALF_OPERATORS__")
    ValueError (ret tt) world_dup
  = (Returns tt, set_nvcc_flags ["-D__CUDA_NO_HALF_OPERATORS__"] world_dup).
Proof.
  apply (proj1 sanitize_removes_first_occurrence world_dup
           "-D__CUDA_NO_HALF_OPERATORS__" [] ["-D__CUDA_NO_HALF_OPERATORS__"]).
  - reflexivity.
  - intros H. inversion H.
Defined.
